(** * Webhook integration adapter of the Datadog Terraform provider

    A shallow embedding of [datadog/resource_datadog_integration_webhook.go]
    and the properties of its header codec, its two translation passes and
    its lifecycle operations. *)

From Stdlib Require Import Ascii.
From stdpp Require Import functions gmap strings list fin_maps.

(** * Part I: the embedding *)

(** ** The parts of Go's [strings] package the adapter calls

    Go strings are byte sequences, and so are [string]s here (one [ascii]
    per byte).  Every separator and cut set the adapter passes is ASCII, for
    which the rune-wise library functions act byte by byte. *)
Module strings.

(** [strings.Contains(s, sep)] for a one-byte [sep]. *)
Fixpoint Contains (s : string) (sep : ascii) : bool :=
  match s with
  | EmptyString => false
  | String c s' => if decide (c = sep) then true else Contains s' sep
  end.

(** [strings.Split(s, sep)] for a one-byte [sep]: the pieces of [s]
    between the occurrences of [sep], one more than there are
    occurrences. *)
Fixpoint Split (s : string) (sep : ascii) : list string :=
  match s with
  | EmptyString => [EmptyString]
  | String c s' =>
      if decide (c = sep) then EmptyString :: Split s' sep
      else match Split s' sep with
           | [] => [String c EmptyString]
           | piece :: pieces => String c piece :: pieces
           end
  end.

(** [strings.Join(elems, sep)]. *)
Fixpoint Join (elems : list string) (sep : string) : string :=
  match elems with
  | [] => EmptyString
  | [e] => e
  | e :: rest => e +:+ sep +:+ Join rest sep
  end.

(** [strings.TrimLeft(s, cutset)]: drops every leading byte of [s] that
    occurs in [cutset]. *)
Fixpoint TrimLeft (s cutset : string) : string :=
  match s with
  | EmptyString => EmptyString
  | String c s' => if Contains cutset c then TrimLeft s' cutset else s
  end.

(** [strings.TrimRight(s, cutset)]. *)
Fixpoint TrimRight (s cutset : string) : string :=
  match s with
  | EmptyString => EmptyString
  | String c s' =>
      match TrimRight s' cutset with
      | EmptyString =>
          if Contains cutset c then EmptyString else String c EmptyString
      | kept => String c kept
      end
  end.

(** [strings.Trim(s, cutset)]: both ends. *)
Definition Trim (s cutset : string) : string :=
  TrimRight (TrimLeft s cutset) cutset.

End strings.

(** ** Errors and fallible results *)

(** A Go [error] value.  The adapter looks at an error only through its
    [Error()] text, except for the one [strconv.ParseBool] hands back. *)
Inductive error : Type :=
  | errorString (msg : string)
  | NumError (Func Num : string).

(** A Go result pair [(value, error)] of which one side is set. *)
Inductive result (A : Type) : Type :=
  | Ok (a : A)
  | Err (e : error).
Arguments Ok {A} a.
Arguments Err {A} e.

Definition bind {A B} (r : result A) (k : A → result B) : result B :=
  match r with
  | Ok a => k a
  | Err e => Err e
  end.

Notation "'let*' x := r 'in' k" := (bind r (λ x, k))
  (at level 10, x name, r at level 100, k at level 200).

Definition newline : ascii := Ascii.ascii_of_nat 10.
Definition tab : ascii := Ascii.ascii_of_nat 9.
Definition colon : ascii := ":"%char.
Definition space : ascii := " "%char.

(** ** Header codec

    [buildDatadogHeader] and [buildTerraformHeader]. *)

(** The order in which a [range] over a Go map visits its entries is not
    specified; [map_order] is one such choice for every map. *)
Definition map_order : Type := gmap string string → list (string * string).

Definition valid_order (range : map_order) : Prop :=
  ∀ m, range m ≡ₚ map_to_list m.

(** [fmt.Sprintf("%s: %s", key, value)]. *)
Definition header_line (kv : string * string) : string :=
  kv.1 +:+ ": " +:+ kv.2.

Definition buildDatadogHeader (range : map_order)
    (headers : gmap string string) : string :=
  strings.Join (header_line <$> range headers) (String newline EmptyString).

(** The text of the error of a line without a colon. *)
Definition header_error (headerStr : string) : error :=
  errorString
    ("header not correctly formatted, expected ':' in '" +:+ headerStr +:+ "'").

(** The body of the loop over [headerStrList], from the map built so far. *)
Fixpoint header_loop (headerStrList : list string)
    (terraformHeaders : gmap string string) : result (gmap string string) :=
  match headerStrList with
  | [] => Ok terraformHeaders
  | headerStr :: rest =>
      if strings.Contains headerStr colon then
        let split := strings.Split headerStr colon in
        header_loop rest
          (<[ hd EmptyString split :=
                strings.TrimLeft (strings.Join (tl split) EmptyString) " " ]>
             terraformHeaders)
      else Err (header_error headerStr)
  end.

Definition blank_cutset : string :=
  String space (String tab (String newline EmptyString)).

Definition buildTerraformHeader (datadogHeader : string)
    : result (gmap string string) :=
  if decide (strings.Trim datadogHeader blank_cutset ≠ EmptyString) then
    header_loop (strings.Split datadogHeader newline) ∅
  else Ok ∅.

(** [only_of cutset s]: every byte of [s] occurs in [cutset]. *)
Fixpoint only_of (cutset s : string) : bool :=
  match s with
  | EmptyString => true
  | String c s' => strings.Contains cutset c && only_of cutset s'
  end.

(** ** What a header line decodes to *)

(** The text of [s] before its first [sep] (all of [s] when there is none),
    the text after it, and [s] without its [sep] bytes. *)
Fixpoint before_first (sep : ascii) (s : string) : string :=
  match s with
  | EmptyString => EmptyString
  | String c s' =>
      if decide (c = sep) then EmptyString else String c (before_first sep s')
  end.

Fixpoint after_first (sep : ascii) (s : string) : string :=
  match s with
  | EmptyString => EmptyString
  | String c s' => if decide (c = sep) then s' else after_first sep s'
  end.

Fixpoint remove_all (sep : ascii) (s : string) : string :=
  match s with
  | EmptyString => EmptyString
  | String c s' =>
      if decide (c = sep) then remove_all sep s' else String c (remove_all sep s')
  end.

(** The value the specification describes: at most one leading space
    removed. *)
Definition trim_one_space (s : string) : string :=
  match s with
  | String c s' => if decide (c = space) then s' else s
  | EmptyString => EmptyString
  end.

(** The value the loop of [buildTerraformHeader] stores for a line. *)
Definition stored_value (headerStr : string) : string :=
  strings.TrimLeft (remove_all colon (after_first colon headerStr)) " ".

(** The loop, line by line, when every line has its colon. *)
Definition store_line (m : gmap string string) (headerStr : string)
    : gmap string string :=
  <[ before_first colon headerStr := stored_value headerStr ]> m.

(** ** Conditions on header keys and values *)

(** A string with neither a colon nor a newline. *)
Definition plain (s : string) : Prop :=
  strings.Contains s colon = false ∧ strings.Contains s newline = false.

(** [s] starts with a space. *)
Definition leading_space (s : string) : bool :=
  match s with
  | String c _ => bool_decide (c = space)
  | EmptyString => false
  end.

(** [m[key] = value]. *)
Definition put (m : gmap string string) (kv : string * string)
    : gmap string string :=
  <[ kv.1 := kv.2 ]> m.

(** ** The parts of [strconv] the adapter calls *)
Module strconv.

Definition FormatBool (b : bool) : string :=
  if b then "true" else "false".

Definition ParseBool (str : string) : result bool :=
  if decide (str ∈ ["1"; "t"; "T"; "TRUE"; "true"; "True"]) then Ok true
  else if decide (str ∈ ["0"; "f"; "F"; "FALSE"; "false"; "False"]) then Ok false
  else Err (NumError "ParseBool" str).

End strconv.

(** ** The wire record

    [datadog.Webhook] of the API client: six optional strings ([*string],
    [nil] as [None]). *)
Module datadog.

Record Webhook : Type := {
  Name : option string;
  URL : option string;
  UseCustomPayload : option string;
  CustomPayload : option string;
  EncodeAsForm : option string;
  Headers : option string;
}.

End datadog.

(** ** Configuration values *)

(** The dynamic types that an [interface{}] of this file holds: the types
    the outbound translation asserts ([string], [bool],
    [map[string]string]), what the inbound translation stores ([*string],
    [*map[string]string]), and the [map[string]interface{}] under which
    the resource data hands over an attribute of [schema.TypeMap]. *)
#[warnings="-register-all"] Inductive iface : Type :=
  | IString (s : string)
  | IBool (b : bool)
  | IMap (m : gmap string string)
  | IStringPtr (p : option string)
  | IMapPtr (m : gmap string string)
  | IMapInterface (m : gmap string iface).

(** Type assertions [v.(string)], [v.(bool)], [v.(map[string]string)]:
    [None] is the panic of a failed assertion. *)
Definition assert_string (v : iface) : option string :=
  match v with IString s => Some s | _ => None end.

Definition assert_bool (v : iface) : option bool :=
  match v with IBool b => Some b | _ => None end.

Definition assert_map (v : iface) : option (gmap string string) :=
  match v with IMap m => Some m | _ => None end.

(** What a pointer points to, as a reader of the state sees it. *)
Definition indirect (v : iface) : iface :=
  match v with
  | IStringPtr (Some s) => IString s
  | IMapPtr m => IMap m
  | _ => v
  end.

(** ** The schema of a hook *)

(** [schema.ValueType], for the types [getWebhookSchema] uses, and the
    attributes it sets. *)
Module schema.

Inductive ValueType : Type := TypeBool | TypeString | TypeMap.

Record Schema : Type := {
  Type_ : ValueType;
  Required : bool;
  Optional : bool;
}.

End schema.

Definition getWebhookSchema : gmap string schema.Schema :=
  <[ "name" :=
       {| schema.Type_ := schema.TypeString;
          schema.Required := true; schema.Optional := false |} ]>
  (<[ "url" :=
       {| schema.Type_ := schema.TypeString;
          schema.Required := true; schema.Optional := false |} ]>
  (<[ "use_custom_payload" :=
       {| schema.Type_ := schema.TypeBool;
          schema.Required := false; schema.Optional := true |} ]>
  (<[ "custom_payload" :=
       {| schema.Type_ := schema.TypeString;
          schema.Required := false; schema.Optional := true |} ]>
  (<[ "encode_as_form" :=
       {| schema.Type_ := schema.TypeBool;
          schema.Required := false; schema.Optional := true |} ]>
  (<[ "headers" :=
       {| schema.Type_ := schema.TypeMap;
          schema.Required := false; schema.Optional := true |} ]> ∅))))).

Definition is_string (v : iface) : bool :=
  match v with
  | IString _ => true
  | _ => false
  end.

(** The value [v] is one that [d.Get] hands over for an attribute of type
    [ty]: a [bool], a [string], or for [schema.TypeMap] a
    [map[string]interface{}] (here of strings, the [Elem] of the one map
    of this schema). *)
Definition has_type (v : iface) (ty : schema.ValueType) : bool :=
  match v, ty with
  | IBool _, schema.TypeBool => true
  | IString _, schema.TypeString => true
  | IMapInterface m, schema.TypeMap =>
      bool_decide (map_Forall (λ _ x, is_string x = true) m)
  | _, _ => false
  end.

(** An element of [d.Get("hooks")] as the resource data builds it from the
    schema [sch] of the nested resource: a key for every field of the
    schema, under it a value of the field's type (the zero value where the
    configuration leaves the field out), and no other key. *)
Definition conforms (sch : gmap string schema.Schema)
    (terraformWebhook : gmap string iface) : Prop :=
  ∀ key,
    match sch !! key with
    | Some field =>
        ∃ v, terraformWebhook !! key = Some v ∧
             has_type v (schema.Type_ field) = true
    | None => terraformWebhook !! key = None
    end.

(** ** A hook of the configuration *)

(** One hook, with the fields of [getWebhookSchema]: [name] and [url]
    required, the rest optional. *)
Module spec.

Record WebhookSpec : Type := {
  name : string;
  url : string;
  use_custom_payload : option bool;
  custom_payload : option string;
  encode_as_form : option bool;
  headers : option (gmap string string);
}.

End spec.

Definition set_field (key : string) (v : option iface)
    (m : gmap string iface) : gmap string iface :=
  match v with
  | Some x => <[ key := x ]> m
  | None => m
  end.

(** The [map[string]interface{}] of a hook that [buildDatadogWebhook]
    takes apart: a key for each field that is set, under the type asserted
    for it. *)
Definition terraformWebhook_of (s : spec.WebhookSpec) : gmap string iface :=
  set_field "headers" (IMap <$> spec.headers s)
    (set_field "encode_as_form" (IBool <$> spec.encode_as_form s)
       (set_field "custom_payload" (IString <$> spec.custom_payload s)
          (set_field "use_custom_payload" (IBool <$> spec.use_custom_payload s)
             (<[ "url" := IString (spec.url s) ]>
                (<[ "name" := IString (spec.name s) ]> ∅))))).

(** The same hook as an element of [d.Get("hooks")]: every key of the
    schema, the zero value for a field the configuration leaves out, the
    headers as a [map[string]interface{}]. *)
Definition configured_hook (s : spec.WebhookSpec) : gmap string iface :=
  <[ "headers" := IMapInterface (IString <$> default ∅ (spec.headers s)) ]>
  (<[ "encode_as_form" := IBool (default false (spec.encode_as_form s)) ]>
  (<[ "custom_payload" := IString (default "" (spec.custom_payload s)) ]>
  (<[ "use_custom_payload" :=
        IBool (default false (spec.use_custom_payload s)) ]>
  (<[ "url" := IString (spec.url s) ]>
  (<[ "name" := IString (spec.name s) ]> ∅))))).

(** ** Outbound translation *)

Definition buildDatadogWebhook (range : map_order)
    (terraformWebhook : gmap string iface) : option datadog.Webhook :=
  name ← terraformWebhook !! "name" ≫= assert_string;
  url ← terraformWebhook !! "url" ≫= assert_string;
  use_custom_payload ←
    match terraformWebhook !! "use_custom_payload" with
    | Some attr => b ← assert_bool attr; Some (Some (strconv.FormatBool b))
    | None => Some None
    end;
  custom_payload ←
    match terraformWebhook !! "custom_payload" with
    | Some attr => s ← assert_string attr; Some (Some s)
    | None => Some None
    end;
  encode_as_form ←
    match terraformWebhook !! "encode_as_form" with
    | Some attr => b ← assert_bool attr; Some (Some (strconv.FormatBool b))
    | None => Some None
    end;
  headers ←
    match terraformWebhook !! "headers" with
    | Some attr => m ← assert_map attr; Some (Some (buildDatadogHeader range m))
    | None => Some None
    end;
  Some {| datadog.Name := Some name;
          datadog.URL := Some url;
          datadog.UseCustomPayload := use_custom_payload;
          datadog.CustomPayload := custom_payload;
          datadog.EncodeAsForm := encode_as_form;
          datadog.Headers := headers |}.

(** The loop of [resourceDatadogIntegrationWebhookPrepareCreateRequest]
    over the hooks from index [idx] on; every [range] over a map is free to
    visit it in an order of its own, [range idx] for the hook at [idx]. *)
Fixpoint buildDatadogWebhooks (range : nat → map_order) (idx : nat)
    (hooks : list (gmap string iface)) : option (list datadog.Webhook) :=
  match hooks with
  | [] => Some []
  | hook :: rest =>
      webhook ← buildDatadogWebhook (range idx) hook;
      webhooks ← buildDatadogWebhooks range (S idx) rest;
      Some (webhook :: webhooks)
  end.

(** ** Inbound translation *)

(** The body of the loop of [buildTerraformWebhooks]. *)
Definition buildTerraformWebhook (datadogWebhook : datadog.Webhook)
    : result (gmap string iface) :=
  let terraformWebhook : gmap string iface :=
    <[ "url" := IStringPtr (datadog.URL datadogWebhook) ]>
      (<[ "name" := IStringPtr (datadog.Name datadogWebhook) ]> ∅) in
  let* terraformWebhook :=
    match datadog.UseCustomPayload datadogWebhook with
    | Some str =>
        let* val := strconv.ParseBool str in
        Ok (<[ "use_custom_payload" := IBool val ]> terraformWebhook)
    | None => Ok terraformWebhook
    end in
  let terraformWebhook :=
    match datadog.CustomPayload datadogWebhook with
    | Some _ =>
        <[ "custom_payload" := IStringPtr (datadog.CustomPayload datadogWebhook) ]>
          terraformWebhook
    | None => terraformWebhook
    end in
  let* terraformWebhook :=
    match datadog.EncodeAsForm datadogWebhook with
    | Some str =>
        let* val := strconv.ParseBool str in
        Ok (<[ "encode_as_form" := IBool val ]> terraformWebhook)
    | None => Ok terraformWebhook
    end in
  match datadog.Headers datadogWebhook with
  | Some str =>
      let* val := buildTerraformHeader str in
      Ok (<[ "headers" := IMapPtr val ]> terraformWebhook)
  | None => Ok terraformWebhook
  end.

Fixpoint buildTerraformWebhooks (datadogWebhooks : list datadog.Webhook)
    : result (list (gmap string iface)) :=
  match datadogWebhooks with
  | [] => Ok []
  | datadogWebhook :: rest =>
      let* terraformWebhook := buildTerraformWebhook datadogWebhook in
      let* terraformWebhooks := buildTerraformWebhooks rest in
      Ok (terraformWebhook :: terraformWebhooks)
  end.

(** ** What the translations are compared with *)

(** The record that [buildDatadogWebhook] builds from a hook. *)
Definition wire_of (range : map_order) (s : spec.WebhookSpec) : datadog.Webhook :=
  {| datadog.Name := Some (spec.name s);
     datadog.URL := Some (spec.url s);
     datadog.UseCustomPayload := strconv.FormatBool <$> spec.use_custom_payload s;
     datadog.CustomPayload := spec.custom_payload s;
     datadog.EncodeAsForm := strconv.FormatBool <$> spec.encode_as_form s;
     datadog.Headers := buildDatadogHeader range <$> spec.headers s |}.

(** The headers of a hook, when it has any, are free of colon and newline;
    and, for [trimmed_headers], no value starts with a space. *)
Definition plain_headers (s : spec.WebhookSpec) : Prop :=
  ∀ m, spec.headers s = Some m → map_Forall (λ k v, plain k ∧ plain v) m.

Definition trimmed_headers (s : spec.WebhookSpec) : Prop :=
  ∀ m, spec.headers s = Some m →
       map_Forall (λ k v, plain k ∧ plain v ∧ leading_space v = false) m.

(** A record does not translate when one of its booleans does not parse or
    its headers do not decode. *)
Definition untranslatable (d : datadog.Webhook) : Prop :=
  (∃ str e, datadog.UseCustomPayload d = Some str ∧ strconv.ParseBool str = Err e) ∨
  (∃ str e, datadog.EncodeAsForm d = Some str ∧ strconv.ParseBool str = Err e) ∨
  (∃ str e, datadog.Headers d = Some str ∧ buildTerraformHeader str = Err e).

(** ** Lifecycle operations as programs over their external calls

    An operation is the tree of the calls it makes on its surroundings,
    each with a continuation from the answer; [Panic] is a Go panic.  The
    type assertion on [meta] that opens every operation is taken to
    succeed. *)

(** The calls that leave the adapter: the three of the API client, the two
    on the resource data [d], and the two on [integrationWebhookMutex]. *)
Inductive call : Type :=
  | GetIntegrationWebhook
  | CreateIntegrationWebhook (iwebhook : list datadog.Webhook)
  | DeleteIntegrationWebhook
  | Get_hooks
  | Set_hooks (terraformWebhooks : list (gmap string iface))
  | Lock
  | Unlock.

(** What a call answers.  An error of the client or of [d.Set] is known by
    its [Error()] text; a fetch answers with that or with the webhooks of
    the integration. *)
Definition answer (c : call) : Type :=
  match c with
  | GetIntegrationWebhook => (string + list datadog.Webhook)%type
  | CreateIntegrationWebhook _ => option string
  | DeleteIntegrationWebhook => option string
  | Get_hooks => list (gmap string iface)
  | Set_hooks _ => option string
  | Lock => unit
  | Unlock => unit
  end.

Inductive prog (R : Type) : Type :=
  | Ret (r : R)
  | Panic
  | Do (c : call) (k : answer c → prog R).
Arguments Ret {R} r.
Arguments Panic {R}.
Arguments Do {R} c k.

Fixpoint pbind {R Q : Type} (p : prog R) (k : R → prog Q) : prog Q :=
  match p with
  | Ret r => k r
  | Panic => Panic
  | Do c h => Do c (λ a, pbind (h a) k)
  end.

(** [defer deferred; body]: the deferred call runs when the body returns
    and when it panics. *)
Fixpoint defer {R : Type} (deferred : prog unit) (body : prog R) : prog R :=
  match body with
  | Ret r => pbind deferred (λ _, Ret r)
  | Panic => pbind deferred (λ _, Panic)
  | Do c h => Do c (λ a, defer deferred (h a))
  end.

Definition resourceDatadogIntegrationWebhookExists : prog (bool * option error) :=
  Do GetIntegrationWebhook (λ fetched,
    match fetched with
    | inl err =>
        if decide (err = "Not Found") then Ret (false, None)
        else Ret (false, Some (errorString err))
    | inr webhooks => Ret (bool_decide (0 < length webhooks), None)
    end).

Definition resourceDatadogIntegrationWebhookPrepareCreateRequest
    (range : nat → map_order) : prog (list datadog.Webhook) :=
  Do Get_hooks (λ hooks,
    match buildDatadogWebhooks range 0 hooks with
    | Some webhooks => Ret webhooks
    | None => Panic
    end).

Definition resourceDatadogIntegrationWebhookRead : prog (option error) :=
  Do GetIntegrationWebhook (λ fetched,
    match fetched with
    | inl err =>
        Ret (Some (errorString ("error reading the Webhook integration: " +:+ err)))
    | inr webhooks =>
        match buildTerraformWebhooks webhooks with
        | Err err => Ret (Some err)
        | Ok terraformWebhooks =>
            Do (Set_hooks terraformWebhooks) (λ err, Ret (errorString <$> err))
        end
    end).

Definition resourceDatadogIntegrationWebhookCreate
    (range : nat → map_order) : prog (option error) :=
  Do Lock (λ _,
    defer (Do Unlock Ret)
      (pbind (resourceDatadogIntegrationWebhookPrepareCreateRequest range)
         (λ iwebhook,
            Do (CreateIntegrationWebhook iwebhook) (λ err,
              match err with
              | Some msg =>
                  Ret (Some (errorString
                               ("error creating a Webhook integration: " +:+ msg)))
              | None => resourceDatadogIntegrationWebhookRead
              end)))).

Definition resourceDatadogIntegrationWebhookDelete : prog (option error) :=
  Do Lock (λ _,
    defer (Do Unlock Ret)
      (Do DeleteIntegrationWebhook (λ err,
         match err with
         | Some msg =>
             Ret (Some (errorString
                          ("error deleting a Webhook integration: " +:+ msg)))
         | None => Ret None
         end))).

(** [resourceDatadogIntegrationWebhookImport]: the read, and on success the
    resource data itself. *)
Definition resourceDatadogIntegrationWebhookImport : prog (bool * option error) :=
  pbind resourceDatadogIntegrationWebhookRead (λ err,
    match err with
    | Some e => Ret (false, Some e)
    | None => Ret (true, None)
    end).

(** ** Running a program against its surroundings *)

(** The surroundings (remote service, resource data) answer every call
    from a state of their own. *)
Record world (S : Type) : Type := {
  respond : ∀ c : call, S → answer c * S;
}.
Arguments respond {S} w c s.

Inductive outcome (R : Type) : Type :=
  | Returned (r : R)
  | Panicked.
Arguments Returned {R} r.
Arguments Panicked {R}.

(** One invocation, alone (no other thread holds the mutex): its outcome,
    the state it leaves and the calls it made, in order. *)
Fixpoint run {S R : Type} (w : world S) (p : prog R) (s : S)
    : outcome R * S * list call :=
  match p with
  | Ret r => (Returned r, s, [])
  | Panic => (Panicked, s, [])
  | Do c k =>
      let '(o, s', log) := run w (k (respond w c s).1) (respond w c s).2 in
      (o, s', c :: log)
  end.

(** The create requests among the calls of a log. *)
Definition create_requests (log : list call) : list (list datadog.Webhook) :=
  omap (λ c, match c with
             | CreateIntegrationWebhook iwebhook => Some iwebhook
             | _ => None
             end) log.

(** An in-memory stand-in: the remote integration, if there is one, and
    the hooks of the resource data. *)
Record stand_in : Type := {
  remote : option (list datadog.Webhook);
  hooks : list (gmap string iface);
}.

Definition memory : world stand_in :=
  {| respond := λ c,
       match c as c0 return stand_in → answer c0 * stand_in with
       | GetIntegrationWebhook => λ s,
           (match remote s with
            | Some webhooks => inr webhooks
            | None => inl "Not Found"
            end, s)
       | CreateIntegrationWebhook iwebhook => λ s,
           (None, {| remote := Some iwebhook; hooks := hooks s |})
       | DeleteIntegrationWebhook => λ s,
           match remote s with
           | Some _ => (None, {| remote := None; hooks := hooks s |})
           | None => (Some "Not Found", s)
           end
       | Get_hooks => λ s, (hooks s, s)
       | Set_hooks terraformWebhooks => λ s,
           (None, {| remote := remote s; hooks := terraformWebhooks |})
       | Lock => λ s, (tt, s)
       | Unlock => λ s, (tt, s)
       end |}.

(** ** Two invocations at once

    Two threads run one operation each against the same surroundings and
    the same [integrationWebhookMutex]; a schedule says which thread moves
    next.  A call on the remote service takes two moves, one that starts it
    and one that takes its answer, so that the calls of two threads can
    overlap; [Lock] waits while the mutex is held. *)

Inductive tid : Type := first | second.

Global Instance tid_eq_dec : EqDecision tid.
Proof. solve_decision. Defined.

Definition other (t : tid) : tid :=
  match t with
  | first => second
  | second => first
  end.

Definition remote_call (c : call) : bool :=
  match c with
  | GetIntegrationWebhook | CreateIntegrationWebhook _ | DeleteIntegrationWebhook => true
  | _ => false
  end.

Definition mutex_call (c : call) : bool :=
  match c with
  | Lock | Unlock => true
  | _ => false
  end.

(** A thread runs its program or waits for the answer of the remote call
    it has started. *)
Inductive thread (R : Type) : Type :=
  | Running (p : prog R)
  | Waiting (c : call) (k : answer c → prog R).
Arguments Running {R} p.
Arguments Waiting {R} c k.

Inductive event : Type :=
  | Started (t : tid) (c : call)
  | Finished (t : tid) (c : call).

(** The two threads, the thread that locked the mutex, the state of the
    surroundings and what has happened so far. *)
Record config (S R : Type) : Type := {
  threads : tid → thread R;
  holder : option tid;
  state : S;
  trace : list event;
}.
Arguments threads {S R} c t.
Arguments holder {S R} c.
Arguments state {S R} c.
Arguments trace {S R} c.

Definition advance {S R : Type} (cfg : config S R) (t : tid) (th : thread R)
    (h : option tid) (s : S) (e : event) : config S R :=
  {| threads := <[ t := th ]> (threads cfg);
     holder := h;
     state := s;
     trace := trace cfg ++ [e] |}.

(** The call [c] of thread [t] is answered. *)
Definition answered {S R : Type} (w : world S) (cfg : config S R) (t : tid)
    (c : call) (k : answer c → prog R) : config S R :=
  advance cfg t (Running (k (respond w c (state cfg)).1)) (holder cfg)
    (respond w c (state cfg)).2 (Finished t c).

(** One move of thread [t]; a thread that has finished, waits for the
    mutex, or unlocks a mutex that nobody holds (a fatal error in Go) stays
    where it is. *)
Definition step {S R : Type} (w : world S) (t : tid) (cfg : config S R)
    : config S R :=
  match threads cfg t with
  | Running (Ret _) => cfg
  | Running Panic => cfg
  | Running (Do c k) =>
      match c as c0 return (answer c0 → prog R) → config S R with
      | Lock => λ k,
          match holder cfg with
          | None =>
              advance cfg t (Running (k tt)) (Some t) (state cfg) (Finished t Lock)
          | Some _ => cfg
          end
      | Unlock => λ k,
          match holder cfg with
          | Some _ =>
              advance cfg t (Running (k tt)) None (state cfg) (Finished t Unlock)
          | None => cfg
          end
      | c0 => λ k,
          if remote_call c0
          then advance cfg t (Waiting c0 k) (holder cfg) (state cfg) (Started t c0)
          else answered w cfg t c0 k
      end k
  | Waiting c k => answered w cfg t c k
  end.

Definition exec {S R : Type} (w : world S) (schedule : list tid)
    (cfg : config S R) : config S R :=
  foldl (λ cfg t, step w t cfg) cfg schedule.

Definition start {S R : Type} (p1 p2 : prog R) (s : S) : config S R :=
  {| threads := λ t, match t with first => Running p1 | second => Running p2 end;
     holder := None;
     state := s;
     trace := [] |}.

(** The threads of the events on the remote service, in order. *)
Definition callers (tr : list event) : list tid :=
  omap (λ e, match e with
             | Started t c | Finished t c => if remote_call c then Some t else None
             end) tr.

(** The remote calls of one thread all come before those of the other. *)
Definition serialized (l : list tid) : Prop :=
  ∃ t n m, l = replicate n (other t) ++ replicate m t.

(** A thread with a remote call ahead or in flight; a thread that has
    returned or panicked. *)
Definition at_remote {R : Type} (th : thread R) : Prop :=
  match th with
  | Waiting _ _ => True
  | Running (Do c _) => remote_call c = true
  | Running _ => False
  end.

Definition finished {R : Type} (th : thread R) : Prop :=
  match th with
  | Running (Ret _) | Running Panic => True
  | _ => False
  end.

(** *** Where a thread stands with respect to the mutex *)

(** A program that touches neither the mutex nor the remote service. *)
Fixpoint quiet {R : Type} (p : prog R) : Prop :=
  match p with
  | Ret _ => True
  | Panic => True
  | Do c k => remote_call c = false ∧ mutex_call c = false ∧ ∀ a, quiet (k a)
  end.

(** A program that runs with the mutex held: it unlocks before it ends, on
    every path, and is quiet from then on. *)
Fixpoint critical {R : Type} (p : prog R) : Prop :=
  match p with
  | Ret _ => False
  | Panic => False
  | Do c k =>
      match c with
      | Lock => False
      | Unlock => ∀ a, quiet (k a)
      | _ => ∀ a, critical (k a)
      end
  end.

(** A program that calls the remote service only between its [Lock] and
    its [Unlock]. *)
Fixpoint guarded {R : Type} (p : prog R) : Prop :=
  match p with
  | Ret _ => True
  | Panic => True
  | Do c k =>
      match c with
      | Lock => ∀ a, critical (k a)
      | Unlock => False
      | _ => remote_call c = false ∧ ∀ a, guarded (k a)
      end
  end.

(** A body without mutex calls. *)
Fixpoint lock_free {R : Type} (p : prog R) : Prop :=
  match p with
  | Ret _ => True
  | Panic => True
  | Do c k => mutex_call c = false ∧ ∀ a, lock_free (k a)
  end.

(** Before the lock, between lock and unlock, after the unlock. *)
Inductive phase : Type := Before | Inside | After.

Definition in_phase {R : Type} (ph : phase) (th : thread R) : Prop :=
  match th, ph with
  | Running p, Before => guarded p
  | Running p, Inside => critical p
  | Running p, After => quiet p
  | Waiting c k, Inside => ∀ a, critical (k a)
  | Waiting _ _, _ => False
  end.

(** What every schedule keeps: the holder of the mutex is the thread
    inside; a thread before its lock has made no remote call; the remote
    calls of the thread inside come after all those of the other. *)
Record inv {S R : Type} (cfg : config S R) (ph : tid → phase) : Prop := {
  inv_phase : ∀ t, in_phase (ph t) (threads cfg t);
  inv_holder : ∀ t, holder cfg = Some t ↔ ph t = Inside;
  inv_before : ∀ t, ph t = Before → t ∉ callers (trace cfg);
  inv_inside : ∀ t, ph t = Inside →
    ∃ n m, callers (trace cfg) = replicate n (other t) ++ replicate m t;
  inv_serial : serialized (callers (trace cfg));
}.

(** ** Hooks and states for the examples *)

Definition demo_spec : spec.WebhookSpec :=
  {| spec.name := "pager"; spec.url := "https://example.test/hook";
     spec.use_custom_payload := Some true;
     spec.custom_payload := Some "{}";
     spec.encode_as_form := Some false;
     spec.headers := Some {[ "Content-Type" := "application/json" ]} |}.

Definition demo_order : nat → map_order := λ _, map_to_list.

Definition demo_start : stand_in :=
  {| remote := None; hooks := [terraformWebhook_of demo_spec] |}.

Definition demo_configured : stand_in :=
  {| remote := None; hooks := [configured_hook demo_spec] |}.

(** A record whose [use_custom_payload] does not parse. *)
Definition demo_bad : datadog.Webhook :=
  {| datadog.Name := Some "bad"; datadog.URL := Some "u";
     datadog.UseCustomPayload := Some "yes";
     datadog.CustomPayload := None;
     datadog.EncodeAsForm := None;
     datadog.Headers := None |}.

Definition demo_remote : stand_in :=
  {| remote := Some [wire_of map_to_list demo_spec; demo_bad];
     hooks := [terraformWebhook_of demo_spec] |}.

(** ** Notions for the further properties *)

(** What decoding makes of an encoded value: its colons and then its
    leading spaces are gone. *)
Definition decoded_value (value : string) : string :=
  strings.TrimLeft (remove_all colon value) " ".

(** The hook has a string under [name] and under [url], and under each
    optional key nothing or a value of the type asserted there. *)
Definition assertable (terraformWebhook : gmap string iface) : Prop :=
  (∃ name, terraformWebhook !! "name" = Some (IString name)) ∧
  (∃ url, terraformWebhook !! "url" = Some (IString url)) ∧
  (∀ v, terraformWebhook !! "use_custom_payload" = Some v → ∃ b, v = IBool b) ∧
  (∀ v, terraformWebhook !! "custom_payload" = Some v → ∃ s, v = IString s) ∧
  (∀ v, terraformWebhook !! "encode_as_form" = Some v → ∃ b, v = IBool b) ∧
  (∀ v, terraformWebhook !! "headers" = Some v → ∃ m, v = IMap m).

(** What the inbound translation stores for the record [d]: [name] and
    [url] as they come, [nil] or not; a key for each optional field that is
    not [nil], with the parsed boolean, the payload as it comes or the
    decoded headers; and no other key. *)
Definition stored_as (d : datadog.Webhook) (t : gmap string iface) : Prop :=
  t !! "name" = Some (IStringPtr (datadog.Name d)) ∧
  t !! "url" = Some (IStringPtr (datadog.URL d)) ∧
  match datadog.UseCustomPayload d with
  | Some str => ∃ b, strconv.ParseBool str = Ok b ∧
                     t !! "use_custom_payload" = Some (IBool b)
  | None => t !! "use_custom_payload" = None
  end ∧
  t !! "custom_payload" = (λ s, IStringPtr (Some s)) <$> datadog.CustomPayload d ∧
  match datadog.EncodeAsForm d with
  | Some str => ∃ b, strconv.ParseBool str = Ok b ∧
                     t !! "encode_as_form" = Some (IBool b)
  | None => t !! "encode_as_form" = None
  end ∧
  match datadog.Headers d with
  | Some str => ∃ m, buildTerraformHeader str = Ok m ∧
                     t !! "headers" = Some (IMapPtr m)
  | None => t !! "headers" = None
  end ∧
  ∀ key, is_Some (t !! key) →
         key ∈ ["name"; "url"; "use_custom_payload"; "custom_payload";
                "encode_as_form"; "headers"].

(** Thread [t] can move: its step adds an event to the trace. *)
Definition moves {S R : Type} (w : world S) (t : tid) (cfg : config S R) : Prop :=
  length (trace (step w t cfg)) = Datatypes.S (length (trace cfg)).

(** [within n p]: the program [p] ends within [n] moves, a call on the
    remote service counting for two. *)
Fixpoint within {R : Type} (n : nat) (p : prog R) {struct p} : Prop :=
  match p with
  | Ret _ => True
  | Panic => True
  | Do c k =>
      match n with
      | 0 => False
      | Datatypes.S n1 =>
          if remote_call c
          then match n1 with
               | 0 => False
               | Datatypes.S n2 => ∀ a, within n2 (k a)
               end
          else ∀ a, within n1 (k a)
      end
  end.

(** The same for a thread; the answer it waits for is one move. *)
Definition thread_within {R : Type} (n : nat) (th : thread R) : Prop :=
  match th with
  | Running p => within n p
  | Waiting c k =>
      match n with
      | 0 => False
      | Datatypes.S n1 => ∀ a, within n1 (k a)
      end
  end.

(** The moves made and the moves left never exceed [budget]. *)
Definition bounded {S R : Type} (budget : nat) (cfg : config S R) : Prop :=
  ∃ n1 n2, thread_within n1 (threads cfg first) ∧
           thread_within n2 (threads cfg second) ∧
           length (trace cfg) + n1 + n2 ≤ budget.

(** * Part II: lemmas and theorems *)

(** ** Facts about the string functions *)
Section string_facts.
Implicit Types (s t cutset : string) (c sep : ascii).

Lemma Contains_app s t c :
  strings.Contains (s +:+ t) c = strings.Contains s c || strings.Contains t c.
Proof.
  induction s as [|a s IH]; simpl; [done|].
  by destruct (decide (a = c)).
Qed.

Lemma Split_nonempty s sep : strings.Split s sep ≠ [].
Proof.
  destruct s as [|a s]; simpl; [done|].
  destruct (decide (a = sep)); [done|].
  by destruct (strings.Split s sep).
Qed.

Lemma Split_absent s sep :
  strings.Contains s sep = false → strings.Split s sep = [s].
Proof.
  induction s as [|a s IH]; simpl; [done|].
  destruct (decide (a = sep)); [done|].
  intros H. by rewrite IH.
Qed.

(** Splitting stops the first piece at the first separator. *)
Lemma Split_first s t sep :
  strings.Contains s sep = false →
  strings.Split (s +:+ String sep t) sep = s :: strings.Split t sep.
Proof.
  induction s as [|a s IH]; simpl.
  - intros _. by rewrite decide_True.
  - destruct (decide (a = sep)); [done|].
    intros H. by rewrite IH.
Qed.

Lemma Split_Join (pieces : list string) sep :
  pieces ≠ [] →
  Forall (λ s, strings.Contains s sep = false) pieces →
  strings.Split (strings.Join pieces (String sep EmptyString)) sep = pieces.
Proof.
  intros Hne Hall. induction Hall as [|s rest Hs Hrest IH]; [done|].
  destruct rest as [|s' rest]; simpl.
  - by apply Split_absent.
  - change (strings.Split
              (s +:+ String sep (strings.Join (s' :: rest) (String sep EmptyString)))
              sep = s :: s' :: rest).
    rewrite Split_first by done. f_equal. by apply IH.
Qed.

Lemma TrimLeft_empty s cutset :
  strings.TrimLeft s cutset = EmptyString ↔ only_of cutset s = true.
Proof.
  induction s as [|a s IH]; simpl; [done|].
  destruct (strings.Contains cutset a); simpl; [done|].
  split; discriminate.
Qed.

Lemma TrimRight_empty s cutset :
  strings.TrimRight s cutset = EmptyString ↔ only_of cutset s = true.
Proof.
  induction s as [|a s IH]; simpl; [done|].
  destruct (strings.TrimRight s cutset) eqn:Hr.
  - destruct (strings.Contains cutset a); simpl.
    + split; [intros _; by apply IH | done].
    + split; discriminate.
  - split; [discriminate|].
    intros [_ H]%andb_true_iff. apply IH in H. discriminate.
Qed.

Lemma only_of_TrimLeft s cutset :
  only_of cutset (strings.TrimLeft s cutset) = true → only_of cutset s = true.
Proof.
  induction s as [|a s IH]; simpl; [done|].
  destruct (strings.Contains cutset a) eqn:Ha; simpl; [done|].
  by rewrite Ha.
Qed.

Lemma Trim_empty s cutset :
  strings.Trim s cutset = EmptyString ↔ only_of cutset s = true.
Proof.
  unfold strings.Trim. rewrite TrimRight_empty. split.
  - apply only_of_TrimLeft.
  - intros H. apply TrimLeft_empty in H. by rewrite H.
Qed.

Lemma only_of_Contains s cutset c :
  only_of cutset s = true → strings.Contains s c = true →
  strings.Contains cutset c = true.
Proof.
  induction s as [|a s IH]; simpl; [done|].
  intros [Ha Hs]%andb_true_iff. destruct (decide (a = c)) as [->|]; auto.
Qed.

(** [TrimLeft] leaves alone a string that does not start with a byte of
    the cut set. *)
Lemma TrimLeft_id s cutset :
  strings.TrimLeft s cutset = s ↔
  match s with
  | EmptyString => True
  | String c _ => strings.Contains cutset c = false
  end.
Proof.
  destruct s as [|a s]; simpl; [done|].
  destruct (strings.Contains cutset a) eqn:Ha; [|done].
  split; [|done]. intros H.
  assert (String.length (strings.TrimLeft s cutset) ≤ String.length s) as Hle.
  { clear. induction s as [|b s IH]; simpl; [lia|].
    destruct (strings.Contains cutset b); simpl; lia. }
  rewrite H in Hle. simpl in Hle. lia.
Qed.

End string_facts.

(** ** The key and the value of a header line *)
Section line_facts.
Implicit Types (s t : string) (sep : ascii).

Lemma before_first_absent s sep : strings.Contains (before_first sep s) sep = false.
Proof.
  induction s as [|a s IH]; simpl; [done|].
  destruct (decide (a = sep)); simpl; [done|]. by rewrite decide_False.
Qed.

Lemma cut_at_first s sep :
  strings.Contains s sep = true →
  s = before_first sep s +:+ String sep (after_first sep s).
Proof.
  induction s as [|a s IH]; simpl; [done|].
  destruct (decide (a = sep)) as [->|]; [done|].
  intros H. change (String a s = String a
    (before_first sep s +:+ String sep (after_first sep s))).
  f_equal. by apply IH.
Qed.

Lemma remove_all_absent s sep :
  strings.Contains s sep = false → remove_all sep s = s.
Proof.
  induction s as [|a s IH]; simpl; [done|].
  destruct (decide (a = sep)); [done|]. intros H. by rewrite IH.
Qed.

Lemma Join_cons_empty s (pieces : list string) :
  strings.Join (s :: pieces) EmptyString = s +:+ strings.Join pieces EmptyString.
Proof.
  destruct pieces; simpl; [|done].
  induction s as [|a s IH]; [done|].
  change (String a s = String a (s +:+ EmptyString)). by f_equal.
Qed.

(** Joining the pieces back with nothing between them loses the
    separators. *)
Lemma Join_Split s sep :
  strings.Join (strings.Split s sep) EmptyString = remove_all sep s.
Proof.
  induction s as [|a s IH]; simpl; [done|].
  destruct (decide (a = sep)).
  - by rewrite Join_cons_empty.
  - destruct (strings.Split s sep) as [|p ps] eqn:Hs.
    + by destruct (Split_nonempty s sep).
    + rewrite Join_cons_empty in IH. rewrite Join_cons_empty, <-IH. done.
Qed.

Lemma Split_line s :
  strings.Contains s colon = true →
  hd EmptyString (strings.Split s colon) = before_first colon s ∧
  strings.TrimLeft (strings.Join (tl (strings.Split s colon)) EmptyString) " "
    = stored_value s.
Proof.
  intros H.
  assert (strings.Split s colon
          = before_first colon s :: strings.Split (after_first colon s) colon)
    as ->.
  { rewrite (cut_at_first s colon H) at 1.
    apply Split_first, before_first_absent. }
  cbn [hd tl]. by rewrite Join_Split.
Qed.

End line_facts.

(** ** The loop of [buildTerraformHeader] *)

(** With a colon in every line the loop stores them all, in order; a colon
    after the first of a line is lost with [Join_Split]. *)
Lemma header_loop_ok (lines : list string) (acc : gmap string string) :
  Forall (λ l, strings.Contains l colon = true) lines →
  header_loop lines acc = Ok (foldl store_line acc lines).
Proof.
  intros Hall. revert acc.
  induction Hall as [|l rest Hl Hrest IH]; intros acc; simpl; [done|].
  rewrite Hl. destruct (Split_line l Hl) as [-> ->]. apply IH.
Qed.

(** The loop stops at the first line without a colon. *)
Lemma header_loop_err (pre post : list string) (bad : string)
    (acc : gmap string string) :
  Forall (λ l, strings.Contains l colon = true) pre →
  strings.Contains bad colon = false →
  header_loop (pre ++ bad :: post) acc = Err (header_error bad).
Proof.
  intros Hpre Hbad. revert acc.
  induction Hpre as [|l rest Hl Hrest IH]; intros acc; simpl.
  - by rewrite Hbad.
  - rewrite Hl. apply IH.
Qed.

Lemma first_without_colon (lines : list string) :
  Exists (λ l, strings.Contains l colon = false) lines →
  ∃ pre bad post,
    lines = pre ++ bad :: post ∧
    Forall (λ l, strings.Contains l colon = true) pre ∧
    strings.Contains bad colon = false.
Proof.
  induction lines as [|l rest IH]; intros Hex; [by inversion Hex|].
  destruct (strings.Contains l colon) eqn:Hl.
  - destruct IH as (pre & bad & post & -> & Hpre & Hbad).
    { inversion Hex; subst; [congruence|done]. }
    exists (l :: pre), bad, post. split_and!; [done| |done].
    by constructor.
  - exists [], l, rest. split_and!; [done|constructor|done].
Qed.

(** ** Decoding what was encoded *)
Section codec_facts.
Implicit Types (k v s t : string) (kv : string * string).

Lemma before_first_app s t sep :
  strings.Contains s sep = false → before_first sep (s +:+ String sep t) = s.
Proof.
  induction s as [|a s IH]; simpl.
  - by rewrite decide_True.
  - destruct (decide (a = sep)); [done|]. intros H. by rewrite IH.
Qed.

Lemma after_first_app s t sep :
  strings.Contains s sep = false → after_first sep (s +:+ String sep t) = t.
Proof.
  induction s as [|a s IH]; simpl.
  - by rewrite decide_True.
  - destruct (decide (a = sep)); [done|]. intros H. by rewrite IH.
Qed.

Lemma header_line_colon kv : strings.Contains (header_line kv) colon = true.
Proof.
  unfold header_line. rewrite Contains_app. apply orb_true_iff. by right.
Qed.

Lemma header_line_newline kv :
  plain kv.1 → plain kv.2 → strings.Contains (header_line kv) newline = false.
Proof.
  intros [_ Hk] [_ Hv]. unfold header_line.
  rewrite Contains_app, Hk. simpl. exact Hv.
Qed.

Lemma header_line_key kv :
  strings.Contains kv.1 colon = false →
  before_first colon (header_line kv) = kv.1.
Proof. intros H. by apply (before_first_app kv.1 (String space kv.2) colon). Qed.

Lemma header_line_value kv :
  strings.Contains kv.1 colon = false →
  strings.Contains kv.2 colon = false →
  stored_value (header_line kv) = strings.TrimLeft kv.2 " ".
Proof.
  intros Hk Hv. unfold stored_value.
  change (header_line kv) with (kv.1 +:+ String colon (String space kv.2)).
  rewrite (after_first_app kv.1 (String space kv.2) colon Hk).
  simpl. by rewrite remove_all_absent.
Qed.

Lemma TrimLeft_no_leading_space v :
  leading_space v = false → strings.TrimLeft v " " = v.
Proof.
  intros H. apply TrimLeft_id. destruct v as [|c v]; [done|].
  simpl in *. apply bool_decide_eq_false in H.
  destruct (decide (" "%char = c)); [|done]. by destruct H.
Qed.

Lemma foldl_store_encoded (l : list (string * string)) (acc : gmap string string) :
  Forall (λ kv, plain kv.1 ∧ plain kv.2 ∧ leading_space kv.2 = false) l →
  foldl store_line acc (header_line <$> l) = foldl put acc l.
Proof.
  intros Hall. revert acc.
  induction Hall as [|kv l ([Hk _] & [Hv _] & Hsp) _ IH]; intros acc; [done|].
  simpl. rewrite <-IH. f_equal. unfold store_line, put.
  by rewrite header_line_key, header_line_value, TrimLeft_no_leading_space.
Qed.

Lemma foldl_put_list_to_map (l : list (string * string)) (acc : gmap string string) :
  NoDup l.*1 → foldl put acc l = list_to_map l ∪ acc.
Proof.
  revert acc. induction l as [|[k v] l IH]; intros acc Hnd; simpl.
  - by rewrite (left_id_L ∅ (∪)).
  - inversion_clear Hnd as [|?? Hk Hl]. rewrite IH by done. unfold put; simpl.
    rewrite <-insert_union_l. symmetry. apply insert_union_r.
    by apply not_elem_of_list_to_map_1.
Qed.

Lemma Join_lines_colon (lines : list string) :
  Exists (λ l, strings.Contains l colon = true) lines →
  strings.Contains (strings.Join lines (String newline EmptyString)) colon = true.
Proof.
  induction lines as [|l rest IH]; intros Hex; [by inversion Hex|].
  destruct rest as [|l' rest].
  - inversion Hex as [?? H|?? H]; subst; [done|by inversion H].
  - change (strings.Contains
              (l +:+ String newline (strings.Join (l' :: rest) (String newline EmptyString)))
              colon = true).
    rewrite Contains_app. apply orb_true_iff.
    inversion Hex as [?? H|?? H]; subst; [by left|right].
    simpl. by apply IH.
Qed.

(** A string with a byte outside the cut set does not trim to nothing. *)
Lemma Trim_nonempty s cutset c :
  strings.Contains s c = true → strings.Contains cutset c = false →
  strings.Trim s cutset ≠ EmptyString.
Proof.
  intros Hs Hc Htrim. apply Trim_empty in Htrim.
  pose proof (only_of_Contains _ _ _ Htrim Hs). congruence.
Qed.

(** Decoding the lines of a header string, all with their colon. *)
Lemma buildTerraformHeader_lines (lines : list string) :
  Forall (λ l, strings.Contains l newline = false) lines →
  Forall (λ l, strings.Contains l colon = true) lines →
  buildTerraformHeader (strings.Join lines (String newline EmptyString))
    = Ok (foldl store_line ∅ lines).
Proof.
  intros Hnl Hcolon. destruct lines as [|l rest]; [done|].
  unfold buildTerraformHeader. rewrite decide_True.
  - rewrite Split_Join by done. by apply header_loop_ok.
  - apply (Trim_nonempty _ _ colon); [|done].
    apply Join_lines_colon. apply Exists_cons_hd. by inversion Hcolon.
Qed.

End codec_facts.

(** ** The header codec: claims *)

(** C1, as stated, fails: a value that starts with a space, though free of
    colons and newlines, comes back without it. *)
Lemma header_round_trip_leading_space :
  let m : gmap string string := {[ "k" := " v" ]} in
  valid_order map_to_list ∧
  map_Forall (λ k v, plain k ∧ plain v) m ∧
  buildTerraformHeader (buildDatadogHeader map_to_list m) = Ok {[ "k" := "v" ]} ∧
  buildTerraformHeader (buildDatadogHeader map_to_list m) ≠ Ok m.
Proof.
  assert (buildTerraformHeader
            (buildDatadogHeader map_to_list ({[ "k" := " v" ]} : gmap string string))
          = Ok {[ "k" := "v" ]}) as Hrun by (vm_compute; reflexivity).
  cbv zeta. split; [|split; [|split]].
  - by intros m.
  - apply map_Forall_singleton. by vm_compute.
  - exact Hrun.
  - rewrite Hrun. intros H.
    apply (f_equal (λ r, match r with Ok m => m !! "k" | Err _ => None end)) in H.
    rewrite !lookup_singleton_eq in H. discriminate.
Qed.

(** Decoding what was encoded from [m], visited in the order [range m]. *)
Lemma decode_encoded (range : map_order) (m : gmap string string) :
  range m ≡ₚ map_to_list m →
  map_Forall (λ k v, plain k ∧ plain v ∧ leading_space v = false) m →
  buildTerraformHeader (buildDatadogHeader range m) = Ok m.
Proof.
  intros Horder Hm. unfold buildDatadogHeader.
  assert (Forall (λ kv, plain kv.1 ∧ plain kv.2 ∧ leading_space kv.2 = false)
            (range m)) as Hall.
  { rewrite Horder. apply Forall_forall. intros [k v] Hkv.
    apply elem_of_map_to_list in Hkv. exact (Hm k v Hkv). }
  rewrite buildTerraformHeader_lines.
  - f_equal. rewrite foldl_store_encoded by done.
    rewrite foldl_put_list_to_map.
    + rewrite (right_id_L ∅ (∪)).
      rewrite (list_to_map_proper _ (map_to_list m)).
      * apply list_to_map_to_list.
      * rewrite Horder. apply NoDup_fst_map_to_list.
      * done.
    + rewrite Horder. apply NoDup_fst_map_to_list.
  - apply Forall_fmap. eapply Forall_impl; [exact Hall|].
    intros kv (Hk & Hv & _). by apply header_line_newline.
  - apply Forall_fmap, Forall_forall. intros kv _. apply header_line_colon.
Qed.

(** C1 (amended): for every header mapping whose keys and values contain no
    colon and no newline and whose values do not start with a space, and
    for every order in which the encoder visits the entries, decoding the
    encoded form succeeds and returns exactly that mapping. *)
Theorem header_round_trip (range : map_order) (m : gmap string string) :
  valid_order range →
  map_Forall (λ k v, plain k ∧ plain v ∧ leading_space v = false) m →
  buildTerraformHeader (buildDatadogHeader range m) = Ok m.
Proof. intros Horder Hm. apply decode_encoded; [apply Horder|exact Hm]. Qed.

Lemma header_round_trip_witness :
  buildTerraformHeader
    (buildDatadogHeader map_to_list
       {[ "Content-Type" := "application/json"; "X-Token" := "a b" ]})
  = Ok {[ "Content-Type" := "application/json"; "X-Token" := "a b" ]}.
Proof.
  apply (header_round_trip map_to_list).
  - by intros m.
  - apply map_Forall_insert_2; [by vm_compute|].
    apply map_Forall_singleton. by vm_compute.
Defined.

(** C2, as stated, fails: of two spaces after the colon the decoder drops
    both, where the claim keeps the second. *)
Lemma decode_line_two_spaces :
  let line := "k:  v" in
  strings.Contains line colon = true ∧
  trim_one_space (after_first colon line) = " v" ∧
  buildTerraformHeader line = Ok {[ "k" := "v" ]} ∧
  buildTerraformHeader line
    ≠ Ok {[ before_first colon line := trim_one_space (after_first colon line) ]}.
Proof.
  assert (buildTerraformHeader "k:  v" = Ok {[ "k" := "v" ]}) as Hrun
    by (vm_compute; reflexivity).
  cbv zeta. split; [done|]. split; [done|]. split; [exact Hrun|].
  rewrite Hrun. intros H.
  apply (f_equal (λ r, match r with Ok m => m !! "k" | Err _ => None end)) in H.
  change (before_first colon "k:  v") with "k" in H.
  rewrite !lookup_singleton_eq in H. discriminate.
Qed.

(** C2 (amended): for header lines that each contain a colon, with no
    further colon after the first, decoding stores for every line, in
    order, the text before the first colon as the key and the text after
    it, all its leading spaces removed, as the value. *)
Theorem decode_lines (lines : list string) :
  Forall (λ l, strings.Contains l newline = false ∧
               strings.Contains l colon = true ∧
               strings.Contains (after_first colon l) colon = false) lines →
  buildTerraformHeader (strings.Join lines (String newline EmptyString))
  = Ok (foldl (λ m l, <[ before_first colon l :=
                           strings.TrimLeft (after_first colon l) " " ]> m)
          ∅ lines).
Proof.
  intros Hall. rewrite buildTerraformHeader_lines.
  - f_equal. generalize (∅ : gmap string string).
    induction Hall as [|l rest (_ & _ & Hrest) _ IH]; intros acc; [done|].
    simpl. rewrite IH. do 2 f_equal. unfold store_line, stored_value.
    by rewrite remove_all_absent.
  - eapply Forall_impl; [exact Hall|]. by intros l (? & _).
  - eapply Forall_impl; [exact Hall|]. by intros l (_ & ? & _).
Qed.

Lemma decode_lines_witness :
  buildTerraformHeader "Content-Type: application/json
X-Pad:   padded"
  = Ok {[ "X-Pad" := "padded"; "Content-Type" := "application/json" ]}.
Proof.
  apply (decode_lines ["Content-Type: application/json"; "X-Pad:   padded"]).
  repeat constructor.
Defined.

(** A colon inside a value is dropped and the rest kept: no part of the
    amended statement above. *)
Example value_colon_dropped :
  buildTerraformHeader "Authorization: Basic a:b" = Ok {[ "Authorization" := "Basic ab" ]}.
Proof. vm_compute. reflexivity. Qed.

(** C6, as stated, fails: a line of one space is not empty and has no
    colon, and decoding it returns the empty mapping. *)
Lemma decode_blank_line_succeeds :
  Exists (λ l, l ≠ EmptyString ∧ strings.Contains l colon = false)
    (strings.Split " " newline) ∧
  buildTerraformHeader " " = Ok ∅.
Proof. split; [|done]. by apply Exists_cons_hd. Qed.

(** C6 (amended): for every input string that has a byte other than space,
    tab and newline and has a line, empty or not, with no colon, decoding
    fails with the error that quotes the first line lacking a colon. *)
Theorem decode_missing_colon (datadogHeader : string) :
  only_of blank_cutset datadogHeader = false →
  Exists (λ l, strings.Contains l colon = false)
    (strings.Split datadogHeader newline) →
  ∃ pre bad post,
    strings.Split datadogHeader newline = pre ++ bad :: post ∧
    Forall (λ l, strings.Contains l colon = true) pre ∧
    strings.Contains bad colon = false ∧
    buildTerraformHeader datadogHeader = Err (header_error bad).
Proof.
  intros Hblank Hex.
  destruct (first_without_colon _ Hex) as (pre & bad & post & Hsplit & Hpre & Hbad).
  exists pre, bad, post. split_and!; [done..|].
  unfold buildTerraformHeader. rewrite decide_True.
  - rewrite Hsplit. by apply header_loop_err.
  - intros Htrim%Trim_empty. congruence.
Qed.

Lemma decode_missing_colon_witness :
  ∃ pre bad post,
    strings.Split "A: b
X-Foo" newline = pre ++ bad :: post ∧
    Forall (λ l, strings.Contains l colon = true) pre ∧
    strings.Contains bad colon = false ∧
    buildTerraformHeader "A: b
X-Foo" = Err (header_error bad).
Proof.
  apply decode_missing_colon; [done|].
  apply Exists_cons_tl, Exists_cons_hd. done.
Defined.

Lemma Split_piece_Contains (s l : string) (sep c : ascii) :
  l ∈ strings.Split s sep → strings.Contains l c = true →
  strings.Contains s c = true.
Proof.
  revert l. induction s as [|a s IH]; intros l; simpl.
  - intros ->%list_elem_of_singleton. done.
  - destruct (decide (a = sep)) as [->|Hne].
    + intros [->|Hin]%elem_of_cons Hl; [done|].
      destruct (decide (sep = c)); [done|]. by apply (IH l).
    + destruct (strings.Split s sep) as [|p ps] eqn:Hs.
      { by destruct (Split_nonempty s sep). }
      intros [->|Hin]%elem_of_cons Hl.
      * simpl in Hl. destruct (decide (a = c)); [done|].
        apply (IH p); [by left|done].
      * destruct (decide (a = c)); [done|]. apply (IH l); [by right|done].
Qed.

(** C10: a wire header string made only of spaces, tabs and newlines (the
    empty string too) decodes to the empty mapping, though none of its
    lines has a colon. *)
Theorem decode_blank (datadogHeader : string) :
  only_of blank_cutset datadogHeader = true →
  Forall (λ l, strings.Contains l colon = false)
    (strings.Split datadogHeader newline) ∧
  buildTerraformHeader datadogHeader = Ok ∅.
Proof.
  intros Hblank. split.
  - apply Forall_forall. intros l Hl.
    destruct (strings.Contains l colon) eqn:Hc; [|done].
    pose proof (Split_piece_Contains _ _ _ _ Hl Hc) as Hs.
    by pose proof (only_of_Contains _ _ _ Hblank Hs).
  - unfold buildTerraformHeader. apply Trim_empty in Hblank.
    by rewrite decide_False by (by intros ?).
Qed.

Lemma decode_blank_witness :
  let s := String space (String newline (String tab (String newline EmptyString))) in
  Forall (λ l, strings.Contains l colon = false) (strings.Split s newline) ∧
  buildTerraformHeader s = Ok ∅.
Proof. by apply decode_blank. Defined.

(** ** How the hooks translate *)

Lemma buildDatadogWebhook_of (range : map_order) (s : spec.WebhookSpec) :
  buildDatadogWebhook range (terraformWebhook_of s) = Some (wire_of range s).
Proof.
  destruct s as [n u [b1|] [p|] [b2|] [h|]]; reflexivity.
Qed.

Lemma ParseBool_FormatBool (b : bool) :
  strconv.ParseBool (strconv.FormatBool b) = Ok b.
Proof. by destruct b. Qed.

Lemma buildTerraformWebhook_of (range : map_order) (s : spec.WebhookSpec) :
  valid_order range → trimmed_headers s →
  ∃ back, buildTerraformWebhook (wire_of range s) = Ok back ∧
          indirect <$> back = terraformWebhook_of s.
Proof.
  intros Hrange Hs. unfold buildTerraformWebhook, terraformWebhook_of, wire_of.
  destruct s as [n u ucp cp eaf h]; simpl in *.
  assert (∀ m, h = Some m →
            buildTerraformHeader (buildDatadogHeader range m) = Ok m) as Hh.
  { intros m ->. apply decode_encoded; [apply Hrange|]. by apply Hs. }
  destruct ucp as [b1|], cp as [p|], eaf as [b2|], h as [m|]; simpl;
    rewrite ?ParseBool_FormatBool, ?(Hh _ eq_refl); simpl;
    eexists; (split; [reflexivity|]);
    by rewrite ?fmap_insert, fmap_empty.
Qed.

(** ** Translation: claims *)


Lemma webhooks_round_trip_from (range : nat → map_order) (idx : nat)
    (L : list spec.WebhookSpec) :
  (∀ i, valid_order (range i)) →
  Forall trimmed_headers L →
  ∃ wire back,
    buildDatadogWebhooks range idx (terraformWebhook_of <$> L) = Some wire ∧
    buildTerraformWebhooks wire = Ok back ∧
    fmap indirect <$> back = terraformWebhook_of <$> L.
Proof.
  intros Hrange HL. revert idx.
  induction HL as [|s L Hs _ IH]; intros idx.
  - by exists [], [].
  - destruct (IH (S idx)) as (wire & back & Hout & Hin & Heq).
    destruct (buildTerraformWebhook_of (range idx) s (Hrange idx) Hs)
      as (b & Hb & Hbeq).
    exists (wire_of (range idx) s :: wire), (b :: back). split_and!.
    + rewrite fmap_cons. cbn [buildDatadogWebhooks].
      by rewrite buildDatadogWebhook_of, Hout.
    + cbn [buildTerraformWebhooks]. by rewrite Hb, Hin.
    + by rewrite !fmap_cons, Hbeq, Heq.
Qed.

(** C3, as stated, fails: a header value that starts with a space, free of
    colons and newlines, is not reproduced. *)
Lemma webhooks_round_trip_leading_space :
  let L := [ {| spec.name := "n"; spec.url := "u";
                spec.use_custom_payload := Some true;
                spec.custom_payload := None;
                spec.encode_as_form := None;
                spec.headers := Some {[ "k" := " v" ]} |} ] in
  Forall plain_headers L ∧
  ∃ wire back,
    buildDatadogWebhooks (λ _, map_to_list) 0 (terraformWebhook_of <$> L)
      = Some wire ∧
    buildTerraformWebhooks wire = Ok back ∧
    fmap indirect <$> back ≠ terraformWebhook_of <$> L.
Proof.
  cbv zeta. split.
  - constructor; [|constructor]. intros m [= <-].
    apply map_Forall_singleton. by vm_compute.
  - eexists. eexists. split; [vm_compute; reflexivity|].
    split; [vm_compute; reflexivity|]. intros H.
    apply (f_equal (λ l, h ← head l; v ← h !! "headers";
                         m ← assert_map v; m !! "k")) in H.
    vm_compute in H. discriminate.
Qed.

(** C3 (amended): for every list of hooks whose header keys and values are
    free of colon and newline and whose header values do not start with a
    space, translating outbound, hook by hook, and then inbound succeeds
    and gives back, behind its pointers, the same list: same names, urls,
    booleans, payloads and header mappings, in the same order. *)
Theorem webhooks_round_trip (range : nat → map_order)
    (L : list spec.WebhookSpec) :
  (∀ i, valid_order (range i)) →
  Forall trimmed_headers L →
  ∃ wire back,
    buildDatadogWebhooks range 0 (terraformWebhook_of <$> L) = Some wire ∧
    buildTerraformWebhooks wire = Ok back ∧
    fmap indirect <$> back = terraformWebhook_of <$> L.
Proof. apply webhooks_round_trip_from. Qed.

Lemma webhooks_round_trip_witness :
  let L := [ {| spec.name := "pager"; spec.url := "https://example.test/hook";
                spec.use_custom_payload := Some true;
                spec.custom_payload := Some "{}";
                spec.encode_as_form := Some false;
                spec.headers := Some {[ "Content-Type" := "application/json" ]} |};
             {| spec.name := "plain"; spec.url := "u";
                spec.use_custom_payload := None;
                spec.custom_payload := None;
                spec.encode_as_form := None;
                spec.headers := None |} ] in
  ∃ wire back,
    buildDatadogWebhooks (λ _, map_to_list) 0 (terraformWebhook_of <$> L)
      = Some wire ∧
    buildTerraformWebhooks wire = Ok back ∧
    fmap indirect <$> back = terraformWebhook_of <$> L.
Proof.
  apply (webhooks_round_trip (λ _, map_to_list)).
  - by intros i m.
  - constructor; [|constructor; [|constructor]].
    + intros m [= <-]. apply map_Forall_singleton. by vm_compute.
    + by intros m [=].
Defined.

(** ** Facts about running programs *)

Lemma run_pbind {S R Q : Type} (w : world S) (p : prog R) (k : R → prog Q) (s : S) :
  run w (pbind p k) s =
  match (run w p s).1.1 with
  | Returned r =>
      ((run w (k r) (run w p s).1.2).1.1,
       (run w (k r) (run w p s).1.2).1.2,
       (run w p s).2 ++ (run w (k r) (run w p s).1.2).2)
  | Panicked => (Panicked, (run w p s).1.2, (run w p s).2)
  end.
Proof.
  revert s. induction p as [r| |c h IH]; intros s; simpl.
  - by destruct (run w (k r) s) as [[o s'] log].
  - done.
  - rewrite IH.
    destruct (run w (h (respond w c s).1) (respond w c s).2) as [[o s'] log].
    simpl. destruct o as [r|]; [|done].
    by destruct (run w (k r) s') as [[o' s''] log'].
Qed.

(** A deferred unlock runs last, whatever the body did, and leaves the
    outcome of the body as it is. *)
Lemma run_defer_unlock {S R : Type} (w : world S) (body : prog R) (s : S) :
  run w (defer (Do Unlock Ret) body) s =
  ((run w body s).1.1,
   (respond w Unlock (run w body s).1.2).2,
   (run w body s).2 ++ [Unlock]).
Proof.
  revert s. induction body as [r| |c h IH]; intros s; simpl; [done..|].
  rewrite IH.
  by destruct (run w (h (respond w c s).1) (respond w c s).2) as [[o s'] log].
Qed.

Lemma buildDatadogWebhooks_of (range : nat → map_order) (idx : nat)
    (L : list spec.WebhookSpec) :
  buildDatadogWebhooks range idx (terraformWebhook_of <$> L)
  = Some (imap (λ i h, wire_of (range (idx + i)) h) L).
Proof.
  revert idx. induction L as [|h L IH]; intros idx; [done|].
  rewrite fmap_cons. cbn [buildDatadogWebhooks].
  rewrite buildDatadogWebhook_of, IH. simpl. rewrite Nat.add_0_r.
  do 2 f_equal. apply imap_ext. intros i x _. simpl. do 2 f_equal. lia.
Qed.

Lemma untranslatable_Err (d : datadog.Webhook) :
  untranslatable d ↔ ∃ e, buildTerraformWebhook d = Err e.
Proof.
  unfold untranslatable, buildTerraformWebhook.
  destruct d as [n u ucp cp eaf h]; simpl.
  destruct ucp as [s1|]; [destruct (strconv.ParseBool s1) as [b1|e1] eqn:H1|];
    destruct eaf as [s2|]; try (destruct (strconv.ParseBool s2) as [b2|e2] eqn:H2);
    destruct h as [s3|]; try (destruct (buildTerraformHeader s3) as [m3|e3] eqn:H3);
    destruct cp; simpl;
    (split;
     [ intros [H|[H|H]]; destruct H as (str & e & Hs & He);
       simplify_eq; try congruence; eauto
     | intros [e He]; simplify_eq; eauto 10 ]).
Qed.

Lemma buildTerraformWebhooks_Err (webhooks : list datadog.Webhook) :
  Exists untranslatable webhooks →
  ∃ pre bad post e,
    webhooks = pre ++ bad :: post ∧
    Forall (λ d, ∃ t, buildTerraformWebhook d = Ok t) pre ∧
    buildTerraformWebhook bad = Err e ∧
    buildTerraformWebhooks webhooks = Err e.
Proof.
  induction webhooks as [|d rest IH]; intros Hex; [by inversion Hex|].
  destruct (buildTerraformWebhook d) as [t|e] eqn:Hd.
  - destruct IH as (pre & bad & post & e & -> & Hpre & Hbad & Hall).
    { inversion Hex as [?? Hu|]; subst; [|done].
      apply untranslatable_Err in Hu as [e He]. congruence. }
    exists (d :: pre), bad, post, e. split_and!; [done| |done|].
    + constructor; eauto.
    + cbn [buildTerraformWebhooks]. by rewrite Hd, Hall.
  - exists [], d, rest, e. split_and!; [done|constructor|done|].
    cbn [buildTerraformWebhooks]. by rewrite Hd.
Qed.

Lemma buildTerraformWebhooks_Ok (webhooks : list datadog.Webhook)
    (terraformWebhooks : list (gmap string iface)) :
  buildTerraformWebhooks webhooks = Ok terraformWebhooks →
  Forall2 (λ d t, buildTerraformWebhook d = Ok t) webhooks terraformWebhooks.
Proof.
  revert terraformWebhooks.
  induction webhooks as [|d rest IH]; intros v; cbn [buildTerraformWebhooks].
  - intros [= <-]. constructor.
  - destruct (buildTerraformWebhook d) as [t|e] eqn:Hd; [|done]. simpl.
    destruct (buildTerraformWebhooks rest) as [ts|e]; [|done]. simpl.
    intros [= <-]. constructor; auto.
Qed.


(** ** The hooks of the resource data *)

Lemma conforms_headers (terraformWebhook : gmap string iface) :
  conforms getWebhookSchema terraformWebhook →
  ∃ m, terraformWebhook !! "headers" = Some (IMapInterface m).
Proof.
  intros Hconf. destruct (Hconf "headers") as (v & Hv & Ht).
  destruct v; try discriminate Ht. by eexists.
Qed.

(** [buildDatadogWebhook] panics on every hook that the resource data
    builds from [getWebhookSchema]: its headers are no
    [map[string]string]. *)
Lemma conforms_panics (range : map_order)
    (terraformWebhook : gmap string iface) :
  conforms getWebhookSchema terraformWebhook →
  buildDatadogWebhook range terraformWebhook = None.
Proof.
  intros [m Hm]%conforms_headers. unfold buildDatadogWebhook. rewrite Hm.
  destruct (terraformWebhook !! "name" ≫= assert_string); [|done].
  destruct (terraformWebhook !! "url" ≫= assert_string); [|done].
  cbn [mbind option_bind].
  destruct (terraformWebhook !! "use_custom_payload") as [v|];
    [destruct (assert_bool v)|]; cbn [mbind option_bind]; try done;
    (destruct (terraformWebhook !! "custom_payload") as [v'|];
       [destruct (assert_string v')|]; cbn [mbind option_bind]; try done);
    (destruct (terraformWebhook !! "encode_as_form") as [v''|];
       [destruct (assert_bool v'')|]; cbn [mbind option_bind]; done).
Qed.

(** The hooks [configured_hook] builds are such hooks. *)
Lemma configured_hook_conforms (s : spec.WebhookSpec) :
  conforms getWebhookSchema (configured_hook s).
Proof.
  intros key.
  destruct (decide (key = "headers")) as [->|?].
  { exists (IMapInterface (IString <$> default ∅ (spec.headers s))).
    split; [reflexivity|]. apply bool_decide_eq_true.
    apply map_Forall_fmap. by intros k v _. }
  destruct (decide (key = "encode_as_form")) as [->|?];
    [eexists; split; reflexivity|].
  destruct (decide (key = "custom_payload")) as [->|?];
    [eexists; split; reflexivity|].
  destruct (decide (key = "use_custom_payload")) as [->|?];
    [eexists; split; reflexivity|].
  destruct (decide (key = "url")) as [->|?];
    [eexists; split; reflexivity|].
  destruct (decide (key = "name")) as [->|?];
    [eexists; split; reflexivity|].
  unfold getWebhookSchema, configured_hook.
  by rewrite !lookup_insert_ne, !lookup_empty.
Qed.

(** ** Lifecycle operations: claims *)

(** C5: whatever the fetch answers, [exists] makes that one call and
    returns [(false, nil)] on "Not Found", [(false, err)] on any other
    error, and otherwise [(b, nil)] with [b] true exactly when the fetched
    list of webhooks is not empty. *)
Theorem exists_outcomes {S : Type} (w : world S) (s : S) :
  let fetched := (respond w GetIntegrationWebhook s).1 in
  let returned := (run w resourceDatadogIntegrationWebhookExists s).1.1 in
  (run w resourceDatadogIntegrationWebhookExists s).2 = [GetIntegrationWebhook] ∧
  (fetched = inl "Not Found" → returned = Returned (false, None)) ∧
  (∀ err, fetched = inl err → err ≠ "Not Found" →
          returned = Returned (false, Some (errorString err))) ∧
  (∀ webhooks, fetched = inr webhooks →
     ∃ b, returned = Returned (b, None) ∧ (b = true ↔ webhooks ≠ [])).
Proof.
  simpl. destruct (respond w GetIntegrationWebhook s) as [[err|webhooks] s1];
    simpl.
  - destruct (decide (err = "Not Found")) as [->|Hne]; simpl.
    + split_and!; [done|done| |done]. by intros err [= <-].
    + split_and!; [done| |by intros err' [= <-]|done]. by intros [= ->].
  - split_and!; [done..|]. intros ? [= <-]. eexists. split; [done|].
    rewrite bool_decide_eq_true. destruct webhooks; simpl; [|split; [done|lia]].
    split; [lia|done].
Qed.

(** C4: when a fetched record does not translate, the read returns the
    error of the first such record right after the fetch, with no call
    that writes the hooks; and a read that does write them has translated
    every fetched record. *)
Theorem read_atomic {S : Type} (w : world S) (s : S) :
  let fetched := (respond w GetIntegrationWebhook s).1 in
  let after_fetch := (respond w GetIntegrationWebhook s).2 in
  (∀ webhooks,
     fetched = inr webhooks → Exists untranslatable webhooks →
     ∃ pre bad post e,
       webhooks = pre ++ bad :: post ∧
       Forall (λ d, ∃ t, buildTerraformWebhook d = Ok t) pre ∧
       buildTerraformWebhook bad = Err e ∧
       run w resourceDatadogIntegrationWebhookRead s
         = (Returned (Some e), after_fetch, [GetIntegrationWebhook])) ∧
  (∀ terraformWebhooks,
     Set_hooks terraformWebhooks ∈ (run w resourceDatadogIntegrationWebhookRead s).2 →
     ∃ webhooks,
       fetched = inr webhooks ∧
       Forall2 (λ d t, buildTerraformWebhook d = Ok t) webhooks terraformWebhooks).
Proof.
  simpl. destruct (respond w GetIntegrationWebhook s) as [[err|webhooks] s1];
    simpl.
  - split; [by intros ? [=]|]. intros v Hin.
    by apply list_elem_of_singleton in Hin.
  - split.
    + intros ? [= <-] Hex.
      destruct (buildTerraformWebhooks_Err webhooks Hex)
        as (pre & bad & post & e & Hsplit & Hpre & Hbad & Hall).
      exists pre, bad, post, e. by rewrite Hall.
    + intros v Hin. exists webhooks. split; [done|].
      destruct (buildTerraformWebhooks webhooks) as [v'|e] eqn:Hall; simpl in Hin.
      * apply buildTerraformWebhooks_Ok.
        apply elem_of_cons in Hin as [?|Hin]; [done|].
        apply list_elem_of_singleton in Hin. by injection Hin as ->.
      * by apply list_elem_of_singleton in Hin.
Qed.

(** C8: create does not send its request for a configuration that has a
    hook.  [d.Get("hooks")] hands over every hook with all the keys of
    [getWebhookSchema], the headers as a [map[string]interface{}], and
    [buildDatadogWebhook] asserts [map[string]string] on them: with one
    hook or more, create panics before any call on the remote service.  It
    sends no create request; its calls are the lock, [d.Get] and the
    deferred unlock. *)
Theorem create_panics_on_configured_hooks {S : Type} (w : world S)
    (range : nat → map_order) (s : S) :
  let s1 := (respond w Lock s).2 in
  let got := respond w Get_hooks s1 in
  let created := run w (resourceDatadogIntegrationWebhookCreate range) s in
  got.1 ≠ [] →
  Forall (conforms getWebhookSchema) got.1 →
  created = (Panicked, (respond w Unlock got.2).2, [Lock; Get_hooks; Unlock]) ∧
  create_requests created.2 = [].
Proof.
  intros s1 got created Hsome Hconf.
  assert (created
          = (Panicked, (respond w Unlock got.2).2, [Lock; Get_hooks; Unlock]))
    as ->; [|done].
  unfold created, resourceDatadogIntegrationWebhookCreate.
  cbn [run]. rewrite run_defer_unlock.
  unfold resourceDatadogIntegrationWebhookPrepareCreateRequest.
  cbn [pbind run]. fold s1. fold got.
  destruct (got.1) as [|hook rest] eqn:Hgot; [done|].
  apply Forall_cons in Hconf as [Hhook _].
  cbn [buildDatadogWebhooks].
  by rewrite (conforms_panics (range 0) hook Hhook).
Qed.

Lemma lock_free_pbind {R Q : Type} (p : prog R) (k : R → prog Q) :
  lock_free p → (∀ r, lock_free (k r)) → lock_free (pbind p k).
Proof.
  intros Hp Hk. induction p as [r| |c h IH]; simpl; [apply Hk|done|].
  destruct Hp as [Hc Hh]. split; [done|]. intros a. by apply IH.
Qed.

(** A body without mutex calls under a deferred unlock is critical. *)
Lemma critical_defer_unlock {R : Type} (body : prog R) :
  lock_free body → critical (defer (Do Unlock Ret) body).
Proof.
  induction body as [r| |c h IH]; simpl; [done..|].
  intros [Hc Hh]. destruct c; try done; intros a; by apply IH.
Qed.

Lemma read_lock_free : lock_free resourceDatadogIntegrationWebhookRead.
Proof.
  simpl. split; [done|]. intros [err|webhooks]; simpl; [done|].
  by destruct (buildTerraformWebhooks webhooks).
Qed.

Lemma create_guarded (range : nat → map_order) :
  guarded (resourceDatadogIntegrationWebhookCreate range).
Proof.
  unfold resourceDatadogIntegrationWebhookCreate. cbn [guarded]. intros _.
  apply critical_defer_unlock, lock_free_pbind.
  - simpl. split; [done|]. intros hooks.
    by destruct (buildDatadogWebhooks range 0 hooks).
  - intros iwebhook. simpl. split; [done|].
    intros [msg|]; [done|]. apply read_lock_free.
Qed.

Lemma delete_guarded : guarded resourceDatadogIntegrationWebhookDelete.
Proof.
  unfold resourceDatadogIntegrationWebhookDelete. cbn [guarded]. intros _.
  apply critical_defer_unlock.
  simpl. split; [done|]. by intros [msg|].
Qed.

(** *** The invariant of every schedule *)

Lemma other_ne (t : tid) : other t ≠ t.
Proof. by destruct t. Qed.

Lemma ne_other (t t' : tid) : t' ≠ t → t' = other t.
Proof. by destruct t, t'. Qed.

Lemma callers_snoc (tr : list event) (e : event) :
  callers (tr ++ [e]) = callers tr ++ callers [e].
Proof. apply omap_app. Qed.

Lemma absent_replicate (t : tid) (l : list tid) :
  t ∉ l → l = replicate (length l) (other t).
Proof.
  induction l as [|x l IH]; [done|].
  intros [Hx Hl]%not_elem_of_cons. simpl. f_equal; [|by apply IH].
  by apply ne_other.
Qed.

Section invariant.
Context {S R : Type} (w : world S).
Implicit Types (cfg : config S R) (ph : tid → phase) (th : thread R).

Lemma inv_two_inside cfg ph t t' :
  inv cfg ph → ph t = Inside → ph t' = Inside → t' = t.
Proof.
  intros Hinv Ht Ht'. apply (inv_holder _ _ Hinv) in Ht, Ht'. congruence.
Qed.

(** A move that stays in its phase and calls nothing remote. *)
Lemma inv_advance_same cfg ph t th s e :
  inv cfg ph → in_phase (ph t) th → callers [e] = [] →
  inv (advance cfg t th (holder cfg) s e) ph.
Proof.
  intros Hinv Hth He. constructor; simpl;
    rewrite ?callers_snoc, ?He, ?app_nil_r; try apply Hinv.
  intros t'. destruct (decide (t' = t)) as [->|Hne].
  - by rewrite fn_lookup_insert.
  - rewrite fn_lookup_insert_ne by done. apply Hinv.
Qed.

(** A move on the remote service, by the thread that holds the mutex. *)
Lemma inv_advance_remote cfg ph t th s e :
  inv cfg ph → ph t = Inside → in_phase Inside th → callers [e] = [t] →
  inv (advance cfg t th (holder cfg) s e) ph.
Proof.
  intros Hinv Ht Hth He.
  destruct (inv_inside _ _ Hinv t Ht) as (n & m & Hcallers).
  assert (callers (trace cfg ++ [e])
          = replicate n (other t) ++ replicate (Datatypes.S m) t) as Hnew.
  { by rewrite callers_snoc, He, Hcallers, replicate_S_end, (assoc_L (++)). }
  constructor; simpl; rewrite ?Hnew.
  - intros t'. destruct (decide (t' = t)) as [->|Hne].
    + by rewrite fn_lookup_insert, Ht.
    + rewrite fn_lookup_insert_ne by done. apply Hinv.
  - apply Hinv.
  - intros t' Ht'. rewrite <-Hnew, callers_snoc, He.
    rewrite not_elem_of_app. split; [by apply Hinv|].
    rewrite list_elem_of_singleton. congruence.
  - intros t' Ht'. rewrite (inv_two_inside _ _ _ _ Hinv Ht Ht'). eauto.
  - by exists t, n, (Datatypes.S m).
Qed.

Lemma inv_advance_lock cfg ph t th s e :
  inv cfg ph → ph t = Before → holder cfg = None →
  in_phase Inside th → callers [e] = [] →
  inv (advance cfg t th (Some t) s e) (<[ t := Inside ]> ph).
Proof.
  intros Hinv Ht Hfree Hth He.
  assert (∀ t', ph t' ≠ Inside) as Hnone.
  { intros t' Ht'. apply (inv_holder _ _ Hinv) in Ht'. congruence. }
  constructor; simpl; rewrite ?callers_snoc, ?He, ?app_nil_r.
  - intros t'. destruct (decide (t' = t)) as [->|Hne].
    + by rewrite !fn_lookup_insert.
    + rewrite !fn_lookup_insert_ne by done. apply Hinv.
  - intros t'. destruct (decide (t' = t)) as [->|Hne].
    + by rewrite fn_lookup_insert.
    + rewrite fn_lookup_insert_ne by done. split; [congruence|].
      intros Ht'. by destruct (Hnone t').
  - intros t'. destruct (decide (t' = t)) as [->|Hne].
    + by rewrite fn_lookup_insert.
    + rewrite fn_lookup_insert_ne by done. apply Hinv.
  - intros t'. destruct (decide (t' = t)) as [->|Hne].
    + intros _. exists (length (callers (trace cfg))), 0. simpl.
      rewrite app_nil_r. apply absent_replicate. by apply Hinv.
    + rewrite fn_lookup_insert_ne by done. intros Ht'. by destruct (Hnone t').
  - apply Hinv.
Qed.

Lemma inv_advance_unlock cfg ph t th s e :
  inv cfg ph → ph t = Inside → in_phase After th → callers [e] = [] →
  inv (advance cfg t th None s e) (<[ t := After ]> ph).
Proof.
  intros Hinv Ht Hth He.
  constructor; simpl; rewrite ?callers_snoc, ?He, ?app_nil_r.
  - intros t'. destruct (decide (t' = t)) as [->|Hne].
    + by rewrite !fn_lookup_insert.
    + rewrite !fn_lookup_insert_ne by done. apply Hinv.
  - intros t'. destruct (decide (t' = t)) as [->|Hne].
    + by rewrite fn_lookup_insert.
    + rewrite fn_lookup_insert_ne by done. split; [done|].
      intros Ht'. by destruct Hne; apply (inv_two_inside cfg ph).
  - intros t'. destruct (decide (t' = t)) as [->|Hne].
    + by rewrite fn_lookup_insert.
    + rewrite fn_lookup_insert_ne by done. apply Hinv.
  - intros t'. destruct (decide (t' = t)) as [->|Hne].
    + by rewrite fn_lookup_insert.
    + rewrite fn_lookup_insert_ne by done. apply Hinv.
  - apply Hinv.
Qed.

End invariant.

Section schedules.
Context {S R : Type} (w : world S).
Implicit Types (cfg : config S R) (ph : tid → phase).

Lemma step_inv cfg ph t : inv cfg ph → ∃ ph', inv (step w t cfg) ph'.
Proof.
  intros Hinv. unfold step. pose proof (inv_phase _ _ Hinv t) as Hph.
  destruct (threads cfg t) as [[r| |c k]|c k]; [by eauto..| |].
  - destruct c; cbn [remote_call].
    + (* GetIntegrationWebhook *)
      destruct (ph t) eqn:Ht; simpl in Hph; [by destruct Hph| |by destruct Hph].
      exists ph. by apply inv_advance_remote.
    + (* CreateIntegrationWebhook *)
      destruct (ph t) eqn:Ht; simpl in Hph; [by destruct Hph| |by destruct Hph].
      exists ph. by apply inv_advance_remote.
    + (* DeleteIntegrationWebhook *)
      destruct (ph t) eqn:Ht; simpl in Hph; [by destruct Hph| |by destruct Hph].
      exists ph. by apply inv_advance_remote.
    + (* d.Get *)
      exists ph. apply inv_advance_same; [done| |done].
      destruct (ph t); simpl in *; [apply Hph..].
    + (* d.Set *)
      exists ph. apply inv_advance_same; [done| |done].
      destruct (ph t); simpl in *; [apply Hph..].
    + (* Lock *)
      destruct (holder cfg) eqn:Hfree; [by eauto|].
      destruct (ph t) eqn:Ht; simpl in Hph; [|done|by destruct Hph as (_ & ? & _)].
      eexists. apply inv_advance_lock; [done..|apply Hph|done].
    + (* Unlock *)
      destruct (holder cfg) eqn:Hheld; [|by eauto].
      destruct (ph t) eqn:Ht; simpl in Hph; [done| |by destruct Hph as (_ & ? & _)].
      eexists. apply inv_advance_unlock; [done..|apply Hph|done].
  - destruct (ph t) eqn:Ht; simpl in Hph; [done| |done].
    exists ph. unfold answered. destruct (remote_call c) eqn:Hc.
    + apply inv_advance_remote; [done..|apply Hph|]. simpl. by rewrite Hc.
    + apply inv_advance_same; [done| |simpl; by rewrite Hc].
      rewrite Ht. apply Hph.
Qed.

Lemma exec_inv (schedule : list tid) cfg ph :
  inv cfg ph → ∃ ph', inv (exec w schedule cfg) ph'.
Proof.
  revert cfg ph. induction schedule as [|t schedule IH]; intros cfg ph Hinv.
  - by exists ph.
  - destruct (step_inv cfg ph t Hinv) as [ph' Hinv']. by apply (IH _ ph').
Qed.

Lemma start_inv (p1 p2 : prog R) (s : S) :
  guarded p1 → guarded p2 → inv (start p1 p2 s) (λ _, Before).
Proof.
  intros H1 H2. constructor; simpl.
  - by intros [].
  - by intros t.
  - intros t _. apply not_elem_of_nil.
  - by intros t.
  - by exists first, 0, 0.
Qed.

(** Whatever the schedule, two guarded programs never have their remote
    calls interleaved; a thread at a remote call holds the mutex, and a
    thread that has ended does not. *)
Lemma guarded_serialized (p1 p2 : prog R) (s : S) (schedule : list tid) :
  guarded p1 → guarded p2 →
  let cfg := exec w schedule (start p1 p2 s) in
  serialized (callers (trace cfg)) ∧
  (∀ t, at_remote (threads cfg t) → holder cfg = Some t) ∧
  (∀ t, finished (threads cfg t) → holder cfg ≠ Some t).
Proof.
  intros H1 H2 cfg.
  destruct (exec_inv schedule _ _ (start_inv p1 p2 s H1 H2)) as [ph Hinv].
  fold cfg in Hinv. split; [apply Hinv|]. split.
  - intros t Hat. apply (inv_holder _ _ Hinv).
    pose proof (inv_phase _ _ Hinv t) as Hph.
    destruct (threads cfg t) as [[r| |c k]|c k]; simpl in Hat; try done.
    + destruct (ph t); [|done|]; destruct c; simpl in *;
        (done || by destruct Hph).
    + by destruct (ph t).
  - intros t Hfin Hheld. apply (inv_holder _ _ Hinv) in Hheld.
    pose proof (inv_phase _ _ Hinv t) as Hph. rewrite Hheld in Hph.
    by destruct (threads cfg t) as [[r| |c k]|c k].
Qed.

End schedules.

(** ** Concurrency: claim *)

(** C9: create in one thread and delete in another, under every schedule
    and whatever the surroundings answer: the remote calls of one are all
    over before those of the other begin; a thread that has a remote call
    ahead or in flight holds the mutex; and a thread that has returned or
    panicked does not hold it. *)
Theorem create_delete_serialized {S : Type} (w : world S)
    (range : nat → map_order) (s : S) (schedule : list tid) :
  let cfg := exec w schedule
               (start (resourceDatadogIntegrationWebhookCreate range)
                      resourceDatadogIntegrationWebhookDelete s) in
  serialized (callers (trace cfg)) ∧
  (∀ t, at_remote (threads cfg t) → holder cfg = Some t) ∧
  (∀ t, finished (threads cfg t) → holder cfg ≠ Some t).
Proof.
  apply guarded_serialized; [apply create_guarded|apply delete_guarded].
Qed.

Lemma create_panics_on_configured_hooks_witness :
  let created :=
    run memory (resourceDatadogIntegrationWebhookCreate demo_order)
      demo_configured in
  created = (Panicked, demo_configured, [Lock; Get_hooks; Unlock]) ∧
  create_requests created.2 = [].
Proof.
  apply (create_panics_on_configured_hooks memory demo_order demo_configured).
  - discriminate.
  - constructor; [|constructor]. apply configured_hook_conforms.
Defined.

Lemma read_atomic_witness :
  ∃ pre bad post e,
    [wire_of map_to_list demo_spec; demo_bad] = pre ++ bad :: post ∧
    Forall (λ d, ∃ t, buildTerraformWebhook d = Ok t) pre ∧
    buildTerraformWebhook bad = Err e ∧
    run memory resourceDatadogIntegrationWebhookRead demo_remote
      = (Returned (Some e), demo_remote, [GetIntegrationWebhook]).
Proof.
  apply (proj1 (read_atomic memory demo_remote)); [reflexivity|].
  apply Exists_cons_tl, Exists_cons_hd. left.
  exists "yes", (NumError "ParseBool" "yes"). by split.
Defined.

Lemma exists_outcomes_witness :
  (run memory resourceDatadogIntegrationWebhookExists demo_start).1.1
    = Returned (false, None) ∧
  ∃ b, (run memory resourceDatadogIntegrationWebhookExists demo_remote).1.1
         = Returned (b, None) ∧
       (b = true ↔ [wire_of map_to_list demo_spec; demo_bad] ≠ []).
Proof.
  split.
  - exact (proj1 (proj2 (exists_outcomes memory demo_start)) eq_refl).
  - exact (proj2 (proj2 (proj2 (exists_outcomes memory demo_remote))) _ eq_refl).
Defined.

(** The read of a translatable integration does write the hooks, and a
    hook without its name makes the outbound translation panic. *)
Example read_writes_hooks :
  run memory resourceDatadogIntegrationWebhookRead
    {| remote := Some []; hooks := [terraformWebhook_of demo_spec] |}
  = (Returned None, {| remote := Some []; hooks := [] |},
     [GetIntegrationWebhook; Set_hooks []]).
Proof. reflexivity. Qed.

Example nameless_hook_panics :
  buildDatadogWebhook map_to_list {[ "url" := IString "u" ]} = None.
Proof. reflexivity. Qed.

(** Without the mutex the remote calls of two threads do interleave: two
    reads, moved in turn. *)
Example reads_overlap :
  callers (trace (exec memory [first; second; first; second]
                    (start resourceDatadogIntegrationWebhookRead
                           resourceDatadogIntegrationWebhookRead demo_remote)))
  = [first; second; first; second].
Proof. reflexivity. Qed.

(** Create and delete, moved in turn: delete waits for the mutex until
    create has unlocked, and both run to their end. *)
Example create_delete_in_turn :
  let cfg := exec memory
               [first; second; first; second; first; second; first; second;
                first; second; first; second; first; second; first; second;
                second; second; second; second]
               (start (resourceDatadogIntegrationWebhookCreate demo_order)
                      resourceDatadogIntegrationWebhookDelete demo_start) in
  callers (trace cfg) = [first; first; first; first; second; second] ∧
  threads cfg first = Running (Ret None) ∧
  threads cfg second = Running (Ret None) ∧
  holder cfg = None ∧
  remote (state cfg) = None.
Proof. vm_compute. done. Qed.

(** * Part III: further properties of the code *)

(** ** More about the header codec *)

Section more_string_facts.
Implicit Types (s t l cutset : string) (c sep : ascii).

Lemma Split_piece_no_sep s l sep :
  l ∈ strings.Split s sep → strings.Contains l sep = false.
Proof.
  revert l. induction s as [|a s IH]; intros l; simpl.
  - by intros ->%list_elem_of_singleton.
  - destruct (decide (a = sep)) as [->|Hne].
    + intros [->|Hin]%elem_of_cons; [done|by apply IH].
    + destruct (strings.Split s sep) as [|p ps] eqn:Hs.
      { by destruct (Split_nonempty s sep). }
      intros [->|Hin]%elem_of_cons.
      * simpl. rewrite decide_False by done. apply IH. by left.
      * apply IH. by right.
Qed.

Lemma Contains_before_first s sep c :
  strings.Contains (before_first sep s) c = true → strings.Contains s c = true.
Proof.
  induction s as [|a s IH]; simpl; [done|].
  destruct (decide (a = sep)); simpl; [done|].
  destruct (decide (a = c)); auto.
Qed.

Lemma Contains_after_first s sep c :
  strings.Contains (after_first sep s) c = true → strings.Contains s c = true.
Proof.
  induction s as [|a s IH]; simpl; [done|].
  destruct (decide (a = sep)), (decide (a = c)); auto.
Qed.

Lemma Contains_remove_all s sep c :
  strings.Contains (remove_all sep s) c = true → strings.Contains s c = true.
Proof.
  induction s as [|a s IH]; simpl; [done|].
  destruct (decide (a = sep)); simpl; destruct (decide (a = c)); auto.
Qed.

Lemma remove_all_gone s sep : strings.Contains (remove_all sep s) sep = false.
Proof.
  induction s as [|a s IH]; simpl; [done|].
  destruct (decide (a = sep)); simpl; [done|]. by rewrite decide_False.
Qed.

Lemma Contains_TrimLeft s cutset c :
  strings.Contains (strings.TrimLeft s cutset) c = true →
  strings.Contains s c = true.
Proof.
  induction s as [|a s IH]; simpl; [done|].
  destruct (strings.Contains cutset a); simpl; destruct (decide (a = c)); auto.
Qed.

Lemma TrimLeft_space_trimmed s : leading_space (strings.TrimLeft s " ") = false.
Proof.
  induction s as [|a s IH]; simpl; [done|].
  destruct (decide (" "%char = a)) as [<-|Hne]; [done|]. simpl.
  apply bool_decide_eq_false. by intros ->.
Qed.

(** What the loop stores for a line without a newline is free of colon and
    newline, and the value does not start with a space. *)
Lemma stored_entry_clean l :
  strings.Contains l newline = false →
  plain (before_first colon l) ∧ plain (stored_value l) ∧
  leading_space (stored_value l) = false.
Proof.
  intros Hl.
  assert (∀ t, (strings.Contains t newline = true → strings.Contains l newline = true) →
               strings.Contains t newline = false) as Hsub.
  { intros t Ht. destruct (strings.Contains t newline); [|done].
    rewrite Ht in Hl; done. }
  split_and!; try split.
  - apply before_first_absent.
  - apply Hsub, Contains_before_first.
  - unfold stored_value.
    destruct (strings.Contains (strings.TrimLeft _ _) colon) eqn:H; [|done].
    apply Contains_TrimLeft in H. by rewrite remove_all_gone in H.
  - apply Hsub. unfold stored_value. intros H.
    by apply Contains_after_first with colon, Contains_remove_all with colon,
      Contains_TrimLeft with " ".
  - apply TrimLeft_space_trimmed.
Qed.

End more_string_facts.

Lemma header_loop_Ok (lines : list string) (acc m : gmap string string) :
  header_loop lines acc = Ok m →
  Forall (λ l, strings.Contains l colon = true) lines ∧
  m = foldl store_line acc lines.
Proof.
  revert acc. induction lines as [|l lines IH]; intros acc; simpl.
  - by intros [= <-].
  - destruct (strings.Contains l colon) eqn:Hl; [|done].
    destruct (Split_line l Hl) as [-> ->]. intros [Hall ->]%IH.
    split; [by constructor|done].
Qed.

Lemma foldl_store_line_Forall (P : string → string → Prop) (lines : list string)
    (acc : gmap string string) :
  map_Forall P acc →
  Forall (λ l, P (before_first colon l) (stored_value l)) lines →
  map_Forall P (foldl store_line acc lines).
Proof.
  intros Hacc Hall. revert acc Hacc.
  induction Hall as [|l lines Hl _ IH]; intros acc Hacc; [done|].
  simpl. apply IH. by apply map_Forall_insert_2.
Qed.

(** Every mapping the decoder returns has keys and values free of colon and
    newline, and values that do not start with a space. *)
Lemma decoded_clean (datadogHeader : string) (m : gmap string string) :
  buildTerraformHeader datadogHeader = Ok m →
  map_Forall (λ k v, plain k ∧ plain v ∧ leading_space v = false) m.
Proof.
  unfold buildTerraformHeader. case_decide as Hblank.
  - intros [_ ->]%header_loop_Ok.
    apply foldl_store_line_Forall; [apply map_Forall_empty|].
    apply Forall_forall. intros l Hl.
    by apply stored_entry_clean, (Split_piece_no_sep datadogHeader).
  - intros [= <-]. apply map_Forall_empty.
Qed.

(** X1: what the decoder returns is a fixed point of the codec: its keys
    and values are free of colon and newline, no value starts with a space,
    and encoding it (in any order) and decoding again gives it back. *)
Theorem decode_normal_form (range : map_order) (datadogHeader : string)
    (m : gmap string string) :
  valid_order range →
  buildTerraformHeader datadogHeader = Ok m →
  map_Forall (λ k v, plain k ∧ plain v ∧ leading_space v = false) m ∧
  buildTerraformHeader (buildDatadogHeader range m) = Ok m.
Proof.
  intros Hrange Hm. pose proof (decoded_clean _ _ Hm) as Hclean.
  split; [done|]. by apply decode_encoded.
Qed.

Lemma decode_normal_form_witness :
  map_Forall (λ k v, plain k ∧ plain v ∧ leading_space v = false)
    ({[ "A" := "bc" ]} : gmap string string) ∧
  buildTerraformHeader (buildDatadogHeader map_to_list {[ "A" := "bc" ]})
    = Ok {[ "A" := "bc" ]}.
Proof.
  apply (decode_normal_form map_to_list "A:   b:c").
  - by intros m.
  - vm_compute. reflexivity.
Defined.

Lemma Split_snoc_sep (s : string) (sep : ascii) :
  strings.Split (s +:+ String sep EmptyString) sep
  = strings.Split s sep ++ [EmptyString].
Proof.
  induction s as [|a s IH]; simpl.
  - by rewrite decide_True.
  - destruct (decide (a = sep)); rewrite IH; [done|].
    destruct (strings.Split s sep) as [|p ps] eqn:Hs; [|done].
    by destruct (Split_nonempty s sep).
Qed.

Lemma only_of_app (cutset s t : string) :
  only_of cutset (s +:+ t) = only_of cutset s && only_of cutset t.
Proof.
  induction s as [|a s IH]; simpl; [done|]. by rewrite IH, andb_assoc.
Qed.

(** X2: a header string with a byte other than space, tab and newline that
    ends in a newline does not decode: its last line is empty and has no
    colon.  The error quotes a line without a colon, the empty one when
    all the lines before it have theirs. *)
Theorem decode_trailing_newline (datadogHeader : string) :
  only_of blank_cutset datadogHeader = false →
  (∃ bad, strings.Contains bad colon = false ∧
          buildTerraformHeader (datadogHeader +:+ String newline EmptyString)
            = Err (header_error bad)) ∧
  (Forall (λ l, strings.Contains l colon = true)
     (strings.Split datadogHeader newline) →
   buildTerraformHeader (datadogHeader +:+ String newline EmptyString)
     = Err (header_error EmptyString)).
Proof.
  intros Hblank.
  assert (∀ pre bad post,
            strings.Split datadogHeader newline ++ [EmptyString]
              = pre ++ bad :: post →
            Forall (λ l, strings.Contains l colon = true) pre →
            strings.Contains bad colon = false →
            buildTerraformHeader (datadogHeader +:+ String newline EmptyString)
              = Err (header_error bad)) as Hrun.
  { intros pre bad post Hsplit Hpre Hbad. unfold buildTerraformHeader.
    rewrite decide_True.
    - rewrite Split_snoc_sep, Hsplit. by apply header_loop_err.
    - intros Htrim%Trim_empty. rewrite only_of_app, Hblank in Htrim. done. }
  split.
  - destruct (first_without_colon
                (strings.Split datadogHeader newline ++ [EmptyString]))
      as (pre & bad & post & Hsplit & Hpre & Hbad).
    { apply Exists_app. right. by apply Exists_cons_hd. }
    exists bad. split; [done|]. by apply (Hrun pre bad post).
  - intros Hall. by apply (Hrun (strings.Split datadogHeader newline) EmptyString []).
Qed.

Lemma decode_trailing_newline_witness :
  ∃ bad, strings.Contains bad colon = false ∧
         buildTerraformHeader ("A: b" +:+ String newline EmptyString)
           = Err (header_error bad).
Proof. apply (decode_trailing_newline "A: b"). reflexivity. Defined.

(** The map after the loop: for every key the value of the last line that
    has it, and what was there before for the other keys. *)
Lemma foldl_store_line_lookup (lines : list string) (acc : gmap string string)
    (k : string) :
  foldl store_line acc lines !! k =
  match last (filter (λ l, before_first colon l = k) lines) with
  | Some l => Some (stored_value l)
  | None => acc !! k
  end.
Proof.
  induction lines as [|l lines IH] using rev_ind; [done|].
  rewrite foldl_snoc, filter_app. unfold store_line at 1.
  rewrite filter_cons, filter_nil.
  destruct (decide (before_first colon l = k)) as [<-|Hne].
  - by rewrite lookup_insert_eq, last_snoc.
  - by rewrite lookup_insert_ne, app_nil_r.
Qed.

(** X3: when two lines of a header string have the same key, the later one
    wins: the decoded mapping gives every key the value of the last line
    that has it, and has no other key. *)
Theorem decode_last_line_wins (lines : list string) :
  Forall (λ l, strings.Contains l newline = false ∧
               strings.Contains l colon = true) lines →
  ∃ m, buildTerraformHeader (strings.Join lines (String newline EmptyString))
         = Ok m ∧
       ∀ k, m !! k = stored_value <$>
                       last (filter (λ l, before_first colon l = k) lines).
Proof.
  intros Hall. eexists. split.
  - apply buildTerraformHeader_lines.
    + eapply Forall_impl; [exact Hall|]. by intros l [? _].
    + eapply Forall_impl; [exact Hall|]. by intros l [_ ?].
  - intros k. rewrite foldl_store_line_lookup.
    by destruct (last _).
Qed.

Lemma decode_last_line_wins_witness :
  ∃ m, buildTerraformHeader "A: 1
B: 2
A: 3" = Ok m ∧
       ∀ k, m !! k = stored_value <$>
                       last (filter (λ l, before_first colon l = k)
                               ["A: 1"; "B: 2"; "A: 3"]).
Proof.
  apply (decode_last_line_wins ["A: 1"; "B: 2"; "A: 3"]).
  repeat constructor.
Defined.

Lemma header_line_no_newline (kv : string * string) :
  strings.Contains kv.1 newline = false →
  strings.Contains kv.2 newline = false →
  strings.Contains (header_line kv) newline = false.
Proof.
  intros Hk Hv. unfold header_line. rewrite Contains_app, Hk. simpl. exact Hv.
Qed.

Lemma stored_value_header_line (kv : string * string) :
  strings.Contains kv.1 colon = false →
  stored_value (header_line kv) = decoded_value kv.2.
Proof.
  intros Hk. unfold stored_value, decoded_value.
  change (header_line kv) with (kv.1 +:+ String colon (String space kv.2)).
  by rewrite (after_first_app kv.1 (String space kv.2) colon Hk).
Qed.

Lemma foldl_store_header_lines (l : list (string * string))
    (acc : gmap string string) :
  Forall (λ kv, strings.Contains kv.1 colon = false) l →
  foldl store_line acc (header_line <$> l)
  = foldl put acc (prod_map id decoded_value <$> l).
Proof.
  intros Hall. revert acc.
  induction Hall as [|kv l Hk _ IH]; intros acc; [done|].
  rewrite !fmap_cons. simpl. rewrite <-IH. f_equal. unfold store_line, put.
  by rewrite header_line_key, stored_value_header_line.
Qed.

(** Decoding an encoded mapping, whatever its values hold but newlines. *)
Lemma decode_encoded_any (range : map_order) (m : gmap string string) :
  range m ≡ₚ map_to_list m →
  map_Forall (λ k v, plain k ∧ strings.Contains v newline = false) m →
  buildTerraformHeader (buildDatadogHeader range m) = Ok (decoded_value <$> m).
Proof.
  intros Horder Hm. unfold buildDatadogHeader.
  assert (Forall (λ kv, plain kv.1 ∧ strings.Contains kv.2 newline = false)
            (range m)) as Hall.
  { rewrite Horder. apply Forall_forall. intros [k v] Hkv.
    apply elem_of_map_to_list in Hkv. exact (Hm k v Hkv). }
  rewrite buildTerraformHeader_lines.
  - f_equal. rewrite foldl_store_header_lines.
    + rewrite foldl_put_list_to_map.
      * rewrite (right_id_L ∅ (∪)), list_to_map_fmap. f_equal.
        rewrite (list_to_map_proper _ (map_to_list m)).
        -- apply list_to_map_to_list.
        -- rewrite Horder. apply NoDup_fst_map_to_list.
        -- done.
      * rewrite <-list_fmap_compose.
        rewrite (list_fmap_ext _ fst (range m)) by (by intros i [k v] _).
        rewrite Horder. apply NoDup_fst_map_to_list.
    + eapply Forall_impl; [exact Hall|]. by intros kv [[Hk _] _].
  - apply Forall_fmap. eapply Forall_impl; [exact Hall|].
    intros kv [[_ Hk] Hv]. by apply header_line_no_newline.
  - apply Forall_fmap, Forall_forall. intros kv _. apply header_line_colon.
Qed.

(** X4: the round trip of any mapping with keys free of colon and newline
    and values free of newline: decoding what was encoded succeeds and
    keeps every key, with the colons and then the leading spaces of its
    value removed. *)
Theorem decode_encode_normalizes (range : map_order) (m : gmap string string) :
  valid_order range →
  map_Forall (λ k v, plain k ∧ strings.Contains v newline = false) m →
  buildTerraformHeader (buildDatadogHeader range m) = Ok (decoded_value <$> m).
Proof. intros Hrange Hm. apply decode_encoded_any; [apply Hrange|exact Hm]. Qed.

Lemma decode_encode_normalizes_witness :
  buildTerraformHeader
    (buildDatadogHeader map_to_list {[ "Authorization" := " Basic a:b" ]})
  = Ok (decoded_value <$> {[ "Authorization" := " Basic a:b" ]}).
Proof.
  apply (decode_encode_normalizes map_to_list).
  - by intros m.
  - apply map_Forall_singleton. by vm_compute.
Defined.

(** X5: two mappings with keys and values free of colon and newline, and no
    value starting with a space, that encode to the same string (each in an
    order of its own) are the same mapping. *)
Theorem encode_injective (range1 range2 : map_order)
    (m1 m2 : gmap string string) :
  valid_order range1 → valid_order range2 →
  map_Forall (λ k v, plain k ∧ plain v ∧ leading_space v = false) m1 →
  map_Forall (λ k v, plain k ∧ plain v ∧ leading_space v = false) m2 →
  buildDatadogHeader range1 m1 = buildDatadogHeader range2 m2 →
  m1 = m2.
Proof.
  intros Hr1 Hr2 Hm1 Hm2 Heq.
  pose proof (decode_encoded range1 m1 (Hr1 m1) Hm1) as H1.
  pose proof (decode_encoded range2 m2 (Hr2 m2) Hm2) as H2.
  rewrite Heq, H2 in H1. by injection H1.
Qed.

Lemma encode_injective_witness :
  ({[ "A" := "b"; "C" := "d" ]} : gmap string string)
  = {[ "C" := "d"; "A" := "b" ]}.
Proof.
  apply (encode_injective map_to_list map_to_list).
  - by intros m.
  - by intros m.
  - apply map_Forall_insert_2; [by vm_compute|].
    apply map_Forall_singleton. by vm_compute.
  - apply map_Forall_insert_2; [by vm_compute|].
    apply map_Forall_singleton. by vm_compute.
  - vm_compute. reflexivity.
Defined.

(** ** More about the two translations *)

Ltac refute_assertable :=
  split; [by intros [? ?]|];
  intros ([? ?] & [? ?] & H3 & H4 & H5 & H6);
  repeat match goal with
         | H : ∀ v, Some ?x = Some v → _ |- _ =>
             destruct (H _ eq_refl) as [? ?]; clear H
         end;
  simplify_eq.

Lemma buildDatadogWebhook_Some (range : map_order)
    (terraformWebhook : gmap string iface) :
  is_Some (buildDatadogWebhook range terraformWebhook) ↔
  assertable terraformWebhook.
Proof.
  unfold buildDatadogWebhook, assertable.
  generalize (terraformWebhook !! "name") (terraformWebhook !! "url")
    (terraformWebhook !! "use_custom_payload")
    (terraformWebhook !! "custom_payload")
    (terraformWebhook !! "encode_as_form") (terraformWebhook !! "headers").
  intros o1 o2 o3 o4 o5 o6.
  destruct o1 as [[n| | | | |]|]; simpl; try refute_assertable.
  destruct o2 as [[u| | | | |]|]; simpl; try refute_assertable.
  destruct o3 as [[|b3| | | |]|]; simpl; try refute_assertable;
    (destruct o4 as [[p| | | | |]|]; simpl; try refute_assertable);
    (destruct o5 as [[|b5| | | |]|]; simpl; try refute_assertable);
    (destruct o6 as [[| |h| | |]|]; simpl; try refute_assertable);
    (split; [intros _|by eauto]);
    (split_and!; eauto; intros v [= <-]; eauto).
Qed.

(** X6: [buildDatadogWebhook] panics exactly on a hook that lacks [name]
    or [url], or holds under one of its six keys a value of another type
    than the one asserted there; the order of the map iteration plays no
    part in it. *)
Theorem outbound_panics (range : map_order)
    (terraformWebhook : gmap string iface) :
  buildDatadogWebhook range terraformWebhook = None ↔
  ¬ assertable terraformWebhook.
Proof.
  rewrite <-buildDatadogWebhook_Some, <-eq_None_not_Some. done.
Qed.

Ltac known_key H :=
  repeat (apply lookup_insert_is_Some in H as [<-|[_ H]];
          [repeat (by left) || right; by left|]);
  rewrite lookup_empty in H; by destruct H.

Lemma buildTerraformWebhook_stored (d : datadog.Webhook) (t : gmap string iface) :
  buildTerraformWebhook d = Ok t → stored_as d t.
Proof.
  unfold buildTerraformWebhook, stored_as.
  destruct d as [n u ucp cp eaf h]; simpl.
  destruct ucp as [s1|]; [destruct (strconv.ParseBool s1) as [b1|e1] eqn:H1|];
    simpl; try done;
    (destruct eaf as [s2|];
       [destruct (strconv.ParseBool s2) as [b2|e2] eqn:H2|]; simpl; try done);
    (destruct h as [s3|];
       [destruct (buildTerraformHeader s3) as [m3|e3] eqn:H3|]; simpl; try done);
    destruct cp as [p|]; simpl; intros [= <-];
    (split_and!; [reflexivity || by eauto..|]);
    intros key Hkey; known_key Hkey.
Qed.

(** X7: when the inbound translation of a list of records succeeds it gives
    one hook per record, in order, and each hook holds what [stored_as]
    says: name and url always, each optional field exactly when the record
    has it, nothing else. *)
Theorem inbound_hooks (datadogWebhooks : list datadog.Webhook)
    (terraformWebhooks : list (gmap string iface)) :
  buildTerraformWebhooks datadogWebhooks = Ok terraformWebhooks →
  Forall2 stored_as datadogWebhooks terraformWebhooks.
Proof.
  revert terraformWebhooks.
  induction datadogWebhooks as [|d rest IH]; intros v;
    cbn [buildTerraformWebhooks].
  - intros [= <-]. constructor.
  - destruct (buildTerraformWebhook d) as [t|e] eqn:Hd; [|done]. simpl.
    destruct (buildTerraformWebhooks rest) as [ts|e]; [|done]. simpl.
    intros [= <-]. constructor; [|by apply IH].
    by apply buildTerraformWebhook_stored.
Qed.

Lemma inbound_hooks_witness :
  Forall2 stored_as
    [ {| datadog.Name := Some "n"; datadog.URL := None;
         datadog.UseCustomPayload := Some "T";
         datadog.CustomPayload := None;
         datadog.EncodeAsForm := None;
         datadog.Headers := Some "A: b" |} ]
    [ {[ "name" := IStringPtr (Some "n"); "url" := IStringPtr None;
         "use_custom_payload" := IBool true;
         "headers" := IMapPtr {[ "A" := "b" ]} ]} ].
Proof. apply inbound_hooks. vm_compute. reflexivity. Defined.

(** X8: the inbound translation is stable: the hook it stores for a record
    with a name and a url, read behind its pointers and translated outbound
    again (in any map order), gives a record with the same name, url and
    payload that translates inbound to the very same hook. *)
Theorem inbound_stable (range : map_order) (d : datadog.Webhook)
    (t : gmap string iface) :
  valid_order range →
  is_Some (datadog.Name d) → is_Some (datadog.URL d) →
  buildTerraformWebhook d = Ok t →
  ∃ d', buildDatadogWebhook range (indirect <$> t) = Some d' ∧
        datadog.Name d' = datadog.Name d ∧
        datadog.URL d' = datadog.URL d ∧
        datadog.CustomPayload d' = datadog.CustomPayload d ∧
        buildTerraformWebhook d' = Ok t.
Proof.
  intros Hrange [n Hn] [u Hu].
  assert (∀ str m, buildTerraformHeader str = Ok m →
            buildTerraformHeader (buildDatadogHeader range m) = Ok m) as Hfix.
  { intros str m Hm. apply decode_encoded; [apply Hrange|].
    by apply (decoded_clean str). }
  destruct d as [? ? ucp cp eaf h]; simpl in Hn, Hu; subst.
  unfold buildTerraformWebhook at 1. simpl.
  destruct ucp as [s1|]; [destruct (strconv.ParseBool s1) as [b1|e1] eqn:H1|];
    simpl; try done;
    (destruct eaf as [s2|];
       [destruct (strconv.ParseBool s2) as [b2|e2] eqn:H2|]; simpl; try done);
    (destruct h as [s3|];
       [destruct (buildTerraformHeader s3) as [m3|e3] eqn:H3|]; simpl; try done);
    destruct cp as [p|]; simpl; intros [= <-];
    rewrite ?fmap_insert, fmap_empty; cbn [indirect];
    (eexists; split; [reflexivity|]);
    (split_and!; [reflexivity..|]);
    unfold buildTerraformWebhook; simpl;
    rewrite ?ParseBool_FormatBool, ?(Hfix _ _ H3); reflexivity.
Qed.

Lemma inbound_stable_witness :
  let d := {| datadog.Name := Some "n"; datadog.URL := Some "u";
              datadog.UseCustomPayload := Some "1";
              datadog.CustomPayload := Some "{}";
              datadog.EncodeAsForm := Some "F";
              datadog.Headers := Some "A:b:c" |} in
  let t : gmap string iface :=
    {[ "name" := IStringPtr (Some "n"); "url" := IStringPtr (Some "u");
       "use_custom_payload" := IBool true;
       "custom_payload" := IStringPtr (Some "{}");
       "encode_as_form" := IBool false;
       "headers" := IMapPtr {[ "A" := "bc" ]} ]} in
  ∃ d', buildDatadogWebhook map_to_list (indirect <$> t) = Some d' ∧
        datadog.Name d' = datadog.Name d ∧
        datadog.URL d' = datadog.URL d ∧
        datadog.CustomPayload d' = datadog.CustomPayload d ∧
        buildTerraformWebhook d' = Ok t.
Proof.
  intros d t. apply (inbound_stable map_to_list d t).
  - by intros m.
  - by eexists.
  - by eexists.
  - vm_compute. reflexivity.
Defined.

(** ** More about the lifecycle operations *)

Lemma buildDatadogWebhooks_panics (range : nat → map_order) (idx : nat)
    (hooks : list (gmap string iface)) :
  Exists (λ hook, ¬ assertable hook) hooks →
  buildDatadogWebhooks range idx hooks = None.
Proof.
  intros Hex. revert idx.
  induction Hex as [hook rest Hbad|hook rest _ IH]; intros idx;
    cbn [buildDatadogWebhooks].
  - destruct (buildDatadogWebhook (range idx) hook) as [webhook|] eqn:Hw; [|done].
    destruct Hbad. apply (buildDatadogWebhook_Some (range idx)). by eexists.
  - rewrite IH. by destruct (buildDatadogWebhook (range idx) hook).
Qed.

(** X9: when a hook of the configuration fails a type assertion, create
    panics before any call on the remote service, and the deferred unlock
    still runs: its calls are the lock, [d.Get] and the unlock. *)
Theorem create_panics_unlocked {S : Type} (w : world S)
    (range : nat → map_order) (s : S) :
  let s1 := (respond w Lock s).2 in
  let s2 := (respond w Get_hooks s1).2 in
  Exists (λ hook, ¬ assertable hook) (respond w Get_hooks s1).1 →
  run w (resourceDatadogIntegrationWebhookCreate range) s
  = (Panicked, (respond w Unlock s2).2, [Lock; Get_hooks; Unlock]).
Proof.
  intros s1 s2 Hbad. unfold resourceDatadogIntegrationWebhookCreate.
  cbn [run]. rewrite run_defer_unlock.
  unfold resourceDatadogIntegrationWebhookPrepareCreateRequest.
  cbn [pbind run]. fold s1.
  by rewrite (buildDatadogWebhooks_panics range 0 _ Hbad).
Qed.

Lemma create_panics_unlocked_witness :
  run memory (resourceDatadogIntegrationWebhookCreate demo_order)
    {| remote := None; hooks := [ {[ "url" := IString "u" ]} ] |}
  = (Panicked, {| remote := None; hooks := [ {[ "url" := IString "u" ]} ] |},
     [Lock; Get_hooks; Unlock]).
Proof.
  apply (create_panics_unlocked memory demo_order).
  apply Exists_cons_hd. intros ([name Hname] & _). discriminate Hname.
Defined.

(** X10: delete makes one call on the remote service, between the lock and
    the unlock, and none on the resource data; it returns [nil] when that
    call does, and otherwise "error deleting a Webhook integration: "
    followed by the text of its error. *)
Theorem delete_outcomes {S : Type} (w : world S) (s : S) :
  let s1 := (respond w Lock s).2 in
  let deleted := respond w DeleteIntegrationWebhook s1 in
  run w resourceDatadogIntegrationWebhookDelete s
  = (Returned
       ((λ msg, errorString ("error deleting a Webhook integration: " +:+ msg))
          <$> deleted.1),
     (respond w Unlock deleted.2).2,
     [Lock; DeleteIntegrationWebhook; Unlock]).
Proof.
  intros s1 deleted. unfold resourceDatadogIntegrationWebhookDelete.
  cbn [run]. rewrite run_defer_unlock. cbn [run]. fold s1 deleted.
  clearbody deleted. by destruct deleted as [[msg|] s2].
Qed.

(** X11: on every path read makes exactly one call on the remote service,
    the fetch, and none on the mutex.  Any error of the fetch, "Not Found"
    too, comes back behind "error reading the Webhook integration: " with
    no call on the resource data; so does, as it is, the error of a record
    that does not translate; when every record translates, read hands the
    hooks to [d.Set] and returns the error of that call, if any. *)
Theorem read_outcomes {S : Type} (w : world S) (s : S) :
  let fetched := respond w GetIntegrationWebhook s in
  let red := run w resourceDatadogIntegrationWebhookRead s in
  filter (λ c, remote_call c = true) red.2 = [GetIntegrationWebhook] ∧
  Forall (λ c, mutex_call c = false) red.2 ∧
  match fetched.1 with
  | inl msg =>
      red = (Returned (Some (errorString
                         ("error reading the Webhook integration: " +:+ msg))),
             fetched.2, [GetIntegrationWebhook])
  | inr webhooks =>
      match buildTerraformWebhooks webhooks with
      | Err e => red = (Returned (Some e), fetched.2, [GetIntegrationWebhook])
      | Ok terraformWebhooks =>
          let set := respond w (Set_hooks terraformWebhooks) fetched.2 in
          red = (Returned (errorString <$> set.1), set.2,
                 [GetIntegrationWebhook; Set_hooks terraformWebhooks])
      end
  end.
Proof.
  intros fetched red. unfold red, resourceDatadogIntegrationWebhookRead.
  cbn [run]. fold fetched. clearbody fetched.
  destruct fetched as [[msg|webhooks] s1]; cbn [fst snd].
  - split; [reflexivity|]. split; [|reflexivity].
    by repeat constructor.
  - destruct (buildTerraformWebhooks webhooks) as [terraformWebhooks|e];
      cbn [run fst snd].
    + split; [reflexivity|]. split; [|reflexivity]. by repeat constructor.
    + split; [reflexivity|]. split; [|reflexivity]. by repeat constructor.
Qed.

(** X12: import is the read: the same calls, the same state left behind,
    the error of the read when it has one and the resource data when it
    has none. *)
Theorem import_is_read {S : Type} (w : world S) (s : S) :
  let red := run w resourceDatadogIntegrationWebhookRead s in
  run w resourceDatadogIntegrationWebhookImport s
  = (match red.1.1 with
     | Returned (Some e) => Returned (false, Some e)
     | Returned None => Returned (true, None)
     | Panicked => Panicked
     end, red.1.2, red.2).
Proof.
  intros red. unfold resourceDatadogIntegrationWebhookImport.
  rewrite run_pbind. fold red. clearbody red.
  destruct red as [[[[e|]|] s1] log]; simpl; by rewrite ?app_nil_r.
Qed.




(** ** More about two invocations at once *)

(** X14: the mutex is one for the whole process: two creates, of two
    resources, and two deletes are serialized as create and delete are. *)
Theorem same_operations_serialized {S : Type} (w : world S)
    (range1 range2 : nat → map_order) (s : S) (schedule : list tid) :
  serialized
    (callers (trace (exec w schedule
                       (start (resourceDatadogIntegrationWebhookCreate range1)
                              (resourceDatadogIntegrationWebhookCreate range2) s)))) ∧
  serialized
    (callers (trace (exec w schedule
                       (start resourceDatadogIntegrationWebhookDelete
                              resourceDatadogIntegrationWebhookDelete s)))).
Proof.
  split.
  - apply (guarded_serialized w); apply create_guarded.
  - apply (guarded_serialized w); apply delete_guarded.
Qed.

Section progress.
Context {S R : Type} (w : world S).
Implicit Types (cfg : config S R) (ph : tid → phase).

Lemma advance_length cfg t th h s e :
  length (trace (advance cfg t th h s e)) = Datatypes.S (length (trace cfg)).
Proof. simpl. rewrite length_app. simpl. lia. Qed.

(** The thread that holds the mutex can move. *)
Lemma inside_moves cfg ph t :
  inv cfg ph → ph t = Inside → moves w t cfg.
Proof.
  intros Hinv Ht. pose proof (inv_phase _ _ Hinv t) as Hph.
  apply (inv_holder _ _ Hinv) in Ht as Hheld. rewrite Ht in Hph.
  unfold moves, step.
  destruct (threads cfg t) as [[r| |c k]|c k]; simpl in Hph; try done.
  - destruct c; try done; try apply advance_length.
    rewrite Hheld. apply advance_length.
  - apply advance_length.
Qed.

(** With the mutex free, a thread that has not ended can move. *)
Lemma outside_moves cfg ph t :
  inv cfg ph → holder cfg = None → ¬ finished (threads cfg t) → moves w t cfg.
Proof.
  intros Hinv Hfree Hrun. pose proof (inv_phase _ _ Hinv t) as Hph.
  assert (ph t ≠ Inside) as Hout.
  { intros Ht%(inv_holder _ _ Hinv). congruence. }
  unfold moves, step.
  destruct (threads cfg t) as [[r| |c k]|c k]; simpl in Hrun; try done.
  - destruct (ph t); try done; destruct c; simpl in Hph;
      try apply advance_length; try done;
      try (by destruct Hph as (_ & ? & _)).
    rewrite Hfree. apply advance_length.
  - by destruct (ph t).
Qed.

Lemma finished_dec (th : thread R) : finished th ∨ ¬ finished th.
Proof. destruct th as [[r| |c k]|c k]; simpl; auto. Qed.

Lemma inv_progress cfg ph :
  inv cfg ph → (∀ t, finished (threads cfg t)) ∨ ∃ t, moves w t cfg.
Proof.
  intros Hinv. destruct (holder cfg) as [t|] eqn:Hheld.
  - right. exists t. apply (inside_moves cfg ph); [done|].
    by apply (inv_holder _ _ Hinv).
  - destruct (finished_dec (threads cfg first)) as [H1|H1];
      [|right; exists first; by apply (outside_moves cfg ph)].
    destruct (finished_dec (threads cfg second)) as [H2|H2];
      [|right; exists second; by apply (outside_moves cfg ph)].
    left. by intros [].
Qed.

Lemma guarded_progress (p1 p2 : prog R) (s : S) (schedule : list tid) :
  guarded p1 → guarded p2 →
  let cfg := exec w schedule (start p1 p2 s) in
  (∀ t, finished (threads cfg t)) ∨ ∃ t, moves w t cfg.
Proof.
  intros H1 H2 cfg.
  destruct (exec_inv w schedule _ _ (start_inv p1 p2 s H1 H2)) as [ph Hinv].
  by apply (inv_progress cfg ph).
Qed.

End progress.

(** X15: create and delete do not deadlock: after any schedule, whatever
    the surroundings answered, either both have ended or one of the two
    threads can move. *)
Theorem create_delete_progress {S : Type} (w : world S)
    (range : nat → map_order) (s : S) (schedule : list tid) :
  let cfg := exec w schedule
               (start (resourceDatadogIntegrationWebhookCreate range)
                      resourceDatadogIntegrationWebhookDelete s) in
  (∀ t, finished (threads cfg t)) ∨ ∃ t, moves w t cfg.
Proof.
  apply guarded_progress; [apply create_guarded|apply delete_guarded].
Qed.

Lemma within_defer_unlock {R : Type} (n : nat) (body : prog R) :
  within n body → within (Datatypes.S n) (defer (Do Unlock Ret) body).
Proof.
  revert n. induction body as [r| |c k IH]; intros n; simpl; [done..|].
  destruct n as [|n1]; [done|]. destruct (remote_call c).
  - destruct n1 as [|n2]; [done|]. intros H a. by apply IH.
  - intros H a. by apply IH.
Qed.

Lemma read_within : within 3 resourceDatadogIntegrationWebhookRead.
Proof.
  simpl. intros [err|webhooks]; [done|].
  by destruct (buildTerraformWebhooks webhooks).
Qed.

Lemma create_within (range : nat → map_order) :
  within 8 (resourceDatadogIntegrationWebhookCreate range).
Proof.
  unfold resourceDatadogIntegrationWebhookCreate. cbn [within remote_call].
  intros _. apply (within_defer_unlock 6).
  unfold resourceDatadogIntegrationWebhookPrepareCreateRequest.
  cbn [pbind within remote_call]. intros hooks.
  destruct (buildDatadogWebhooks range 0 hooks) as [iwebhook|]; [|done].
  cbn [pbind within remote_call]. intros [msg|]; [done|]. apply read_within.
Qed.

Lemma delete_within : within 4 resourceDatadogIntegrationWebhookDelete.
Proof.
  unfold resourceDatadogIntegrationWebhookDelete. cbn [within remote_call].
  intros _. apply (within_defer_unlock 2). simpl. by intros [msg|].
Qed.

Section bounds.
Context {S R : Type} (w : world S).
Implicit Types (cfg : config S R).

Lemma bounded_advance budget cfg t th h s e n1 n2 n :
  thread_within n1 (threads cfg first) →
  thread_within n2 (threads cfg second) →
  length (trace cfg) + n1 + n2 ≤ budget →
  Datatypes.S n = (match t with first => n1 | second => n2 end) →
  thread_within n th →
  bounded budget (advance cfg t th h s e).
Proof.
  intros H1 H2 Hle Hn Hth. destruct t.
  - exists n, n2. simpl. rewrite length_app. simpl. split_and!; [done|done|lia].
  - exists n1, n. simpl. rewrite length_app. simpl. split_and!; [done|done|lia].
Qed.

Lemma step_bounded budget cfg t : bounded budget cfg → bounded budget (step w t cfg).
Proof.
  intros (n1 & n2 & H1 & H2 & Hle).
  assert (bounded budget cfg) as Hsame by (by exists n1, n2).
  assert (thread_within (match t with first => n1 | second => n2 end)
            (threads cfg t)) as Ht by (by destruct t).
  assert (∀ n th h s e,
            Datatypes.S n = (match t with first => n1 | second => n2 end) →
            thread_within n th → bounded budget (advance cfg t th h s e)) as Hadv.
  { intros n th h s e Hn Hth. by apply (bounded_advance budget cfg t th h s e n1 n2 n). }
  unfold step. destruct (threads cfg t) as [[r| |c k]|c k]; [done..| |].
  - simpl in Ht.
    destruct (match t with first => n1 | second => n2 end) as [|n]; [done|].
    destruct c; cbn [remote_call] in *.
    + by apply (Hadv n).
    + by apply (Hadv n).
    + by apply (Hadv n).
    + apply (Hadv n); [done|]. apply Ht.
    + apply (Hadv n); [done|]. apply Ht.
    + destruct (holder cfg); [done|]. apply (Hadv n); [done|]. apply Ht.
    + destruct (holder cfg); [|done]. apply (Hadv n); [done|]. apply Ht.
  - simpl in Ht.
    destruct (match t with first => n1 | second => n2 end) as [|n]; [done|].
    apply (Hadv n); [done|]. apply Ht.
Qed.

Lemma exec_bounded budget (schedule : list tid) cfg :
  bounded budget cfg → bounded budget (exec w schedule cfg).
Proof.
  revert cfg. induction schedule as [|t schedule IH]; intros cfg Hb; [done|].
  apply IH. by apply step_bounded.
Qed.

Lemma within_trace_bound (n1 n2 : nat) (p1 p2 : prog R) (s : S)
    (schedule : list tid) :
  within n1 p1 → within n2 p2 →
  length (trace (exec w schedule (start p1 p2 s))) ≤ n1 + n2.
Proof.
  intros H1 H2.
  destruct (exec_bounded (n1 + n2) schedule (start p1 p2 s))
    as (m1 & m2 & _ & _ & Hle).
  - exists n1, n2. simpl. split_and!; [done|done|lia].
  - lia.
Qed.

End bounds.

(** X16: create and delete make no move without end: under every schedule
    and whatever the surroundings answer, the two threads together make at
    most twelve moves (eight for create, four for delete), a call on the
    remote service counting for two; the operations retry nothing. *)
Theorem create_delete_bounded {S : Type} (w : world S)
    (range : nat → map_order) (s : S) (schedule : list tid) :
  length (trace (exec w schedule
                   (start (resourceDatadogIntegrationWebhookCreate range)
                          resourceDatadogIntegrationWebhookDelete s))) ≤ 12.
Proof.
  apply (within_trace_bound w 8 4); [apply create_within|apply delete_within].
Qed.

Section moves.
Context {S R : Type} (w : world S).
Implicit Types (cfg : config S R).

Lemma step_Lock cfg t k :
  threads cfg t = Running (Do Lock k) → holder cfg = None →
  step w t cfg = advance cfg t (Running (k tt)) (Some t) (state cfg) (Finished t Lock).
Proof. intros Ht Hfree. unfold step. by rewrite Ht, Hfree. Qed.

Lemma step_Get_hooks cfg t k :
  threads cfg t = Running (Do Get_hooks k) →
  step w t cfg = answered w cfg t Get_hooks k.
Proof. intros Ht. unfold step. by rewrite Ht. Qed.

Lemma step_remote cfg t c k :
  threads cfg t = Running (Do c k) → remote_call c = true →
  step w t cfg = advance cfg t (Waiting c k) (holder cfg) (state cfg) (Started t c).
Proof. intros Ht Hc. unfold step. rewrite Ht. by destruct c. Qed.

Lemma step_Waiting cfg t c k :
  threads cfg t = Waiting c k → step w t cfg = answered w cfg t c k.
Proof. intros Ht. unfold step. by rewrite Ht. Qed.

End moves.

Lemma interleaved_not_serialized : ¬ serialized [first; second; first].
Proof.
  intros (t & n & m & H).
  destruct t; destruct n as [|[|[|n]]]; destruct m as [|[|[|m]]];
    simpl in H; discriminate H.
Qed.

(** X17: read takes no lock, so it is not serialized against create: with
    hooks that translate, there is a schedule in which the fetch of a read
    starts between the start and the answer of the request of a create. *)
Theorem read_overlaps_create {S : Type} (w : world S)
    (range : nat → map_order) (s : S) (iwebhook : list datadog.Webhook) :
  buildDatadogWebhooks range 0 (respond w Get_hooks s).1 = Some iwebhook →
  let cfg := exec w [first; first; first; second; first]
               (start (resourceDatadogIntegrationWebhookCreate range)
                      resourceDatadogIntegrationWebhookRead s) in
  trace cfg = [Finished first Lock; Finished first Get_hooks;
               Started first (CreateIntegrationWebhook iwebhook);
               Started second GetIntegrationWebhook;
               Finished first (CreateIntegrationWebhook iwebhook)] ∧
  ¬ serialized (callers (trace cfg)).
Proof.
  intros Hhooks cfg.
  assert (trace cfg = [Finished first Lock; Finished first Get_hooks;
               Started first (CreateIntegrationWebhook iwebhook);
               Started second GetIntegrationWebhook;
               Finished first (CreateIntegrationWebhook iwebhook)]) as Htrace.
  { unfold cfg, exec. cbn [foldl].
    set (c0 := start (resourceDatadogIntegrationWebhookCreate range)
                 resourceDatadogIntegrationWebhookRead s).
    rewrite (step_Lock w c0 first _ eq_refl eq_refl).
    set (c1 := advance c0 first _ _ _ _).
    rewrite (step_Get_hooks w c1 first _ eq_refl).
    set (c2 := answered w c1 first _ _).
    assert (∃ k, threads c2 first
                 = Running (Do (CreateIntegrationWebhook iwebhook) k)) as [k Hk].
    { eexists. unfold c2, answered, advance. cbn [threads state].
      rewrite fn_lookup_insert. unfold c1, advance, c0, start. cbn [state].
      rewrite Hhooks. reflexivity. }
    rewrite (step_remote w c2 first _ k Hk eq_refl).
    set (c3 := advance c2 first _ _ _ _).
    rewrite (step_remote w c3 second GetIntegrationWebhook _ eq_refl eq_refl).
    set (c4 := advance c3 second _ _ _ _).
    rewrite (step_Waiting w c4 first (CreateIntegrationWebhook iwebhook) k).
    - reflexivity.
    - unfold c4, c3, advance. cbn [threads].
      by rewrite fn_lookup_insert_ne, fn_lookup_insert. }
  split; [done|]. rewrite Htrace. exact interleaved_not_serialized.
Qed.

Lemma read_overlaps_create_witness :
  let cfg := exec memory [first; first; first; second; first]
               (start (resourceDatadogIntegrationWebhookCreate demo_order)
                      resourceDatadogIntegrationWebhookRead demo_start) in
  trace cfg = [Finished first Lock; Finished first Get_hooks;
               Started first
                 (CreateIntegrationWebhook [wire_of map_to_list demo_spec]);
               Started second GetIntegrationWebhook;
               Finished first
                 (CreateIntegrationWebhook [wire_of map_to_list demo_spec])] ∧
  ¬ serialized (callers (trace cfg)).
Proof.
  exact (read_overlaps_create memory demo_order demo_start _ eq_refl).
Defined.
